(** * Gap insertion along a vector path ([insert_gaps_in_path])

    Shallow embedding of [insert_gaps_in_path] of [vectorize_fast.py] and
    the properties its specification states about it.

    Numbers.  The program computes on Python floats.  The function is
    embedded twice.  First over the exact rationals [Q], where rounding
    is abstracted away; Python's [max(a, b)] and [min(a, b)] keep their
    first argument unless the second is strictly larger (smaller), which
    is what [Qmax] and [Qmin] do.  Then, in module [Py], over an abstract
    float arithmetic of which nothing is assumed, with library calls
    that may all raise; the exact rationals, the rationals extended with
    infinities, and the machine's binary64 are instances of it, and the
    first embedding is the second at the exact instance
    ([exact_insert_gaps_in_path]).  What depends on how additions round,
    or on a call raising, is stated over the second.

    Effects.  A Python exception is the outcome [Exc]; [try ... except
    Exception: pass] is [try_except].  The [while] loop that places the
    periodic gaps runs on an iteration budget; exhausting it is the
    outcome [Fuel].

    The curve type of the geometry library (svgpathtools) is an interface
    [SvgPath.Ops] with the three operations the function uses. *)

From Stdlib Require Import Ascii String.
From Stdlib Require PrimFloat Uint63.
From Stdlib Require Import QArith Qminmax Qround Lqa Lia List Bool Arith ZArith Sorted.
Import ListNotations.
Local Open Scope Q_scope.

(** ** Outcomes of a computation *)

Inductive res (A : Type) : Type :=
| Ret (a : A)   (* normal completion with a value *)
| Exc           (* an exception propagates *)
| Fuel.         (* the iteration budget of the model is exhausted *)
Arguments Ret {A} a.
Arguments Exc {A}.
Arguments Fuel {A}.

Definition bind {A B : Type} (m : res A) (k : A -> res B) : res B :=
  match m with
  | Ret a => k a
  | Exc => Exc
  | Fuel => Fuel
  end.

Notation "x <- m ;; k" := (bind m (fun x => k))
  (at level 61, m at next level, right associativity).

(** [try: body except Exception: handler] *)
Definition try_except {A : Type} (body handler : res A) : res A :=
  match body with
  | Exc => handler
  | _ => body
  end.

(** A library call that either returns or raises. *)
Definition call {A : Type} (o : option A) : res A :=
  match o with
  | Some a => Ret a
  | None => Exc
  end.

(** Float division: [ZeroDivisionError] on a zero divisor. *)
Definition fdiv (x y : Q) : res Q :=
  if Qeq_bool y 0 then Exc else Ret (x / y).

(** ** The curve interface *)

Module SvgPath.

(** [len p] is [len(path)], the number of primitives; [length p] is
    [path.length()], the total arc length; [cropped p t0 t1] is
    [path.cropped(t0, t1)], [None] when the library raises. *)
Class Ops (Curve : Type) : Type := {
  len : Curve -> nat;
  length : Curve -> Q;
  cropped : Curve -> Q -> Q -> option Curve
}.

End SvgPath.

(** ** The function *)

Section InsertGaps.

Context {Curve : Type} `{SvgPath.Ops Curve}.

(** The [while pos < total_length] loop of the periodic branch;
    [fuel] bounds the number of times its body runs. *)
Fixpoint gap_loop (fuel : nat) (total_length gap_length gap_spacing pos : Q)
         (gap_positions : list (Q * Q)) : res (list (Q * Q)) :=
  if Qlt_le_dec pos total_length then
    match fuel with
    | O => Fuel
    | S fuel' =>
        let gap_start := pos in
        let gap_end := Qmin (pos + gap_length) total_length in
        gap_loop fuel' total_length gap_length gap_spacing (pos + gap_spacing)
                 (gap_positions ++ [(gap_start, gap_end)])
    end
  else Ret gap_positions.

(** Lines 186-204: the list [gap_positions] when the segment
    construction starts. *)
Definition gap_positions (fuel : nat) (total_length gap_length gap_spacing : Q)
  : res (list (Q * Q)) :=
  if Qlt_le_dec total_length gap_spacing then
    mid <- fdiv total_length 2 ;;
    half <- fdiv gap_length 2 ;;
    let gap_start := Qmax 0 (mid - half) in
    half' <- fdiv gap_length 2 ;;
    let gap_end := Qmin total_length (mid + half') in
    if Qlt_le_dec 0 gap_start then Ret [(gap_start, gap_end)]
    else if Qlt_le_dec gap_end total_length then Ret [(gap_start, gap_end)]
    else Ret []
  else
    gap_loop fuel total_length gap_length gap_spacing gap_spacing [].

(** Lines 217-231: the guarded crop of the segment before a gap. *)
Definition segment_before_gap (path : Curve) (total_length segment_start gap_start : Q)
           (segments_out : list Curve) : res (list Curve) :=
  try_except
    (t_start <- fdiv segment_start total_length ;;
     t_end <- fdiv gap_start total_length ;;
     let t_start := Qmax 0 (Qmin 1 t_start) in
     let t_end := Qmax 0 (Qmin 1 t_end) in
     if Qlt_le_dec t_start t_end then
       seg <- call (SvgPath.cropped path t_start t_end) ;;
       if (0 <? SvgPath.len seg)%nat then Ret (segments_out ++ [seg])
       else Ret segments_out
     else Ret segments_out)
    (Ret segments_out).

(** Lines 214-234: the [for gap_start, gap_end in gap_positions] loop;
    the state is [(segment_start, segments_out)]. *)
Fixpoint build_segments (path : Curve) (total_length : Q) (gaps : list (Q * Q))
         (segment_start : Q) (segments_out : list Curve) : res (Q * list Curve) :=
  match gaps with
  | [] => Ret (segment_start, segments_out)
  | (gap_start, gap_end) :: rest =>
      segments_out' <-
        (if Qlt_le_dec segment_start gap_start then
           segment_before_gap path total_length segment_start gap_start segments_out
         else Ret segments_out) ;;
      build_segments path total_length rest gap_end segments_out'
  end.

(** Lines 237-248: the guarded crop of the segment after the last gap. *)
Definition final_segment (path : Curve) (total_length segment_start : Q)
           (segments_out : list Curve) : res (list Curve) :=
  if Qlt_le_dec segment_start total_length then
    try_except
      (t_start <- fdiv segment_start total_length ;;
       let t_start := Qmax 0 (Qmin 1 t_start) in
       if Qlt_le_dec t_start 1 then
         seg <- call (SvgPath.cropped path t_start 1) ;;
         if (0 <? SvgPath.len seg)%nat then Ret (segments_out ++ [seg])
         else Ret segments_out
       else Ret segments_out)
      (Ret segments_out)
  else Ret segments_out.

Definition insert_gaps_in_path (fuel : nat) (path : Curve) (gap_length gap_spacing : Q)
  : res (list Curve) :=
  if (SvgPath.len path =? 0)%nat then Ret []
  else
    let total_length := SvgPath.length path in
    if Qeq_bool total_length 0 then Ret [path]
    else
      gaps <- gap_positions fuel total_length gap_length gap_spacing ;;
      match gaps with
      | [] => Ret [path]
      | _ :: _ =>
          st <- build_segments path total_length gaps 0 [] ;;
          segments_out <- final_segment path total_length (fst st) (snd st) ;;
          match segments_out with
          | [] => Ret [path]
          | _ :: _ => Ret segments_out
          end
      end.

End InsertGaps.

(** ** A concrete curve: a straight stroke

    A stroke from abscissa [lo] to [hi] drawn with [prims] primitives.
    Cropping keeps the primitives count and cuts the abscissa range
    proportionally; a [brittle] stroke raises on every crop. *)

Record Stroke : Type := mkStroke {
  lo : Q;
  hi : Q;
  prims : nat;
  brittle : bool
}.

#[export] Instance Stroke_ops : SvgPath.Ops Stroke := {|
  SvgPath.len := prims;
  SvgPath.length := fun p => hi p - lo p;
  SvgPath.cropped := fun p t0 t1 =>
    if brittle p then None
    else Some (mkStroke (lo p + t0 * (hi p - lo p)) (lo p + t1 * (hi p - lo p))
                        (prims p) false)
|}.

Definition stroke (l : Q) : Stroke := mkStroke 0 l 1 false.
Definition brittle_stroke (l : Q) : Stroke := mkStroke 0 l 1 true.

(** The arc lengths of the returned strokes, in lowest terms. *)
Definition out_lengths (r : res (list Stroke)) : res (list Q) :=
  x <- r ;; Ret (map (fun p => Qred (SvgPath.length p)) x).

(** ** Vocabulary of the specification *)

(** Clamping of a curve parameter to [0, 1] (lines 222-223 and 240). *)
Definition clamp01 (t : Q) : Q := Qmax 0 (Qmin 1 t).

(** The cast [nat -> Q]. *)
Definition Qn (n : nat) : Q := inject_Z (Z.of_nat n).

(** A budget that lets the periodic loop run to its end. *)
Definition fuel_bound (total_length gap_spacing : Q) : nat :=
  Z.to_nat (Qceiling (total_length / gap_spacing)).

(** The number of times the body of the periodic loop runs. *)
Definition periodic_count (total_length gap_spacing : Q) : nat :=
  Z.to_nat (Qceiling (total_length / gap_spacing) - 1).

(** The gaps recorded by [n] iterations of the periodic loop entered at
    [pos]. *)
Fixpoint gaps_from (total_length gap_length gap_spacing pos : Q) (n : nat)
  : list (Q * Q) :=
  match n with
  | O => []
  | S n' => (pos, Qmin (pos + gap_length) total_length)
              :: gaps_from total_length gap_length gap_spacing (pos + gap_spacing) n'
  end.

(** The cursor [segment_start] after the gaps have been walked. *)
Fixpoint cursor_after (c : Q) (gaps : list (Q * Q)) : Q :=
  match gaps with
  | [] => c
  | (_, gap_end) :: rest => cursor_after gap_end rest
  end.

(** The parameter ranges [(t_start, t_end)] the gap walk computes, in
    order, for the gaps whose start lies beyond the cursor. *)
Fixpoint loop_requests (total_length c : Q) (gaps : list (Q * Q)) : list (Q * Q) :=
  match gaps with
  | [] => []
  | (gap_start, gap_end) :: rest =>
      (if Qlt_le_dec c gap_start
       then [(clamp01 (c / total_length), clamp01 (gap_start / total_length))]
       else [])
      ++ loop_requests total_length gap_end rest
  end.

(** All parameter ranges of one call: those of the walk, then the one of
    the trailing segment. *)
Definition crop_requests (total_length : Q) (gaps : list (Q * Q)) : list (Q * Q) :=
  loop_requests total_length 0 gaps
  ++ (if Qlt_le_dec (cursor_after 0 gaps) total_length
      then [(clamp01 (cursor_after 0 gaps / total_length), 1)]
      else []).

(** The arc-length ranges between the gaps: from the cursor to the next
    gap start where that is further on, and from the last gap end to the
    path end. *)
Fixpoint arc_spans (total_length c : Q) (gaps : list (Q * Q)) : list (Q * Q) :=
  match gaps with
  | [] => if Qlt_le_dec c total_length then [(c, total_length)] else []
  | (gap_start, gap_end) :: rest =>
      (if Qlt_le_dec c gap_start then [(c, gap_start)] else [])
      ++ arc_spans total_length gap_end rest
  end.

(** The gaps can be walked from cursor [c]: each gap is non-empty and
    ends on the path, the cursor never moves back, and the gaps start in
    ascending order. *)
Fixpoint walkable (total_length c : Q) (gaps : list (Q * Q)) : Prop :=
  match gaps with
  | [] => True
  | (gap_start, gap_end) :: rest =>
      gap_start < gap_end /\ gap_end <= total_length /\ c <= gap_end
      /\ Forall (fun r => gap_start <= fst r) rest
      /\ walkable total_length gap_end rest
  end.

(** The summed widths of the ranges of [l]. *)
Definition sum_widths (l : list (Q * Q)) : Q :=
  fold_right Qplus 0 (map (fun r => snd r - fst r) l).

(** [x] lies in one of the half-open ranges of [l]. *)
Definition covered (x : Q) (l : list (Q * Q)) : Prop :=
  Exists (fun r => fst r <= x /\ x < snd r) l.

(** Two ranges with equal ends. *)
Definition range_eq (r r' : Q * Q) : Prop :=
  fst r == fst r' /\ snd r == snd r'.

(** The first range ends where or before the second starts. *)
Definition before (r r' : Q * Q) : Prop := snd r <= fst r'.

(** The first range starts strictly before the second. *)
Definition starts_before (r r' : Q * Q) : Prop := fst r < fst r'.

Section Vocabulary.

Context {Curve : Type} `{SvgPath.Ops Curve}.

(** What one guarded crop appends to [segments_out]: nothing when the
    range is empty, when the library raises or when the cropped curve
    has no primitive. *)
Definition attempt (path : Curve) (r : Q * Q) : list Curve :=
  if Qlt_le_dec (fst r) (snd r) then
    match SvgPath.cropped path (fst r) (snd r) with
    | Some seg => if (0 <? SvgPath.len seg)%nat then [seg] else []
    | None => []
    end
  else [].

(** The crop of [r] fails: it raises or gives a curve without
    primitives. *)
Definition crop_fails (path : Curve) (r : Q * Q) : Prop :=
  match SvgPath.cropped path (fst r) (snd r) with
  | Some seg => SvgPath.len seg = O
  | None => True
  end.

(** Every crop of a non-empty sub-range of [0, 1] returns a curve with
    at least one primitive. *)
Definition crops_succeed (path : Curve) : Prop :=
  forall t0 t1, 0 <= t0 -> t0 < t1 -> t1 <= 1 ->
    exists seg, SvgPath.cropped path t0 t1 = Some seg /\ (0 < SvgPath.len seg)%nat.

(** A cropped curve has the arc length of its parameter range. *)
Definition crops_preserve_length (path : Curve) : Prop :=
  forall t0 t1 seg, SvgPath.cropped path t0 t1 = Some seg ->
    SvgPath.length seg == (t1 - t0) * SvgPath.length path.

(** [seg] is the part of [path] over the arc-length range [r]: the
    whole path for the whole range, or the crop to the parameters of
    [r]. *)
Definition segment_of (path seg : Curve) (r : Q * Q) : Prop :=
  (seg = path /\ fst r == 0 /\ snd r == SvgPath.length path)
  \/ (exists t0 t1,
        SvgPath.cropped path t0 t1 = Some seg /\ (0 < SvgPath.len seg)%nat
        /\ t0 * SvgPath.length path == fst r
        /\ t1 * SvgPath.length path == snd r).

(** The summed arc lengths of the curves of [l]. *)
Definition combined_length (l : list Curve) : Q :=
  fold_right Qplus 0 (map SvgPath.length l).

(** [seg] was emitted for a non-empty parameter range inside [0, 1]. *)
Definition proper_crop (path seg : Curve) : Prop :=
  exists t0 t1, 0 <= t0 /\ t0 < t1 /\ t1 <= 1
    /\ SvgPath.cropped path t0 t1 = Some seg /\ (0 < SvgPath.len seg)%nat.

(** The value returned once the gaps are known (lines 206-250). *)
Definition segmentation (path : Curve) (gaps : list (Q * Q)) : list Curve :=
  match gaps with
  | [] => [path]
  | _ :: _ =>
      match flat_map (attempt path) (crop_requests (SvgPath.length path) gaps) with
      | [] => [path]
      | seg :: segs => seg :: segs
      end
  end.

End Vocabulary.

(** ** The rest of the program

    The loop of [main] over the parsed paths, the reader of the traced
    document and the writer of the gapped document.  A text is the
    sequence of its code points, all below 256.  An XML element is its tag, its attributes in document
    order and its children; a Python [dict] with distinct keys is the
    list of its items in insertion order.  Reading and writing files,
    console output and the external tracer are not modelled:
    [parse_svg_paths] starts from the parsed root element and
    [write_svg_with_gaps] ends with the root element it serializes. *)

#[local] Unset Elimination Schemes.
Inductive element : Type :=
| Element (tag : string) (attrib : list (string * string)) (children : list element).
#[local] Set Elimination Schemes.

Definition tag_of (e : element) : string :=
  match e with Element tag _ _ => tag end.

Definition attrib_of (e : element) : list (string * string) :=
  match e with Element _ attrib _ => attrib end.

Definition children_of (e : element) : list element :=
  match e with Element _ _ children => children end.

(** [mapping.get(key, default)]. *)
Fixpoint get (items : list (string * string)) (key default : string) : string :=
  match items with
  | [] => default
  | (k, v) :: rest => if String.eqb k key then v else get rest key default
  end.

(** [Element.iter()]: the element and its descendants in document order. *)
Fixpoint iter (e : element) : list element :=
  match e with
  | Element _ _ children => e :: flat_map iter children
  end.

(** [root.findall('.//' + tag)]: the proper descendants with that tag,
    in document order. *)
Definition findall (root : element) (tag : string) : list element :=
  filter (fun e => String.eqb (tag_of e) tag) (flat_map iter (children_of root)).

Definition svg_ns : string := "http://www.w3.org/2000/svg".

(** The tag ['svg:path'] resolves to under [{'svg': svg_ns}]. *)
Definition svg_path_tag : string := String.append "{" (String.append svg_ns "}path").

(** [str.isspace] on the code points below 256. *)
Definition isspace (c : ascii) : bool :=
  existsb (N.eqb (N_of_ascii c)) [9; 10; 11; 12; 13; 28; 29; 30; 31; 32; 133; 160]%N.

(** [str.split()]: the maximal runs of characters that are not white
    space; [word] is the run being read. *)
Fixpoint split_loop (s word : string) : list string :=
  match s with
  | EmptyString => if String.eqb word "" then [] else [word]
  | String c rest =>
      if isspace c then
        if String.eqb word "" then split_loop rest ""
        else word :: split_loop rest ""
      else split_loop rest (String.append word (String c ""))
  end.

Definition split (s : string) : list string := split_loop s "".

(** Texts of curves: [parse_path(d)], [None] when it raises, and
    [path.d()]. *)
Module SvgText.

Class Ops (Curve : Type) : Type := {
  parse_path : string -> option Curve;
  d : Curve -> string
}.

End SvgText.

(** Texts of floats: [float(s)], [None] when it raises [ValueError], and
    [str(x)]. *)
Class FloatText : Type := {
  float_of_string : string -> option Q;
  str_of_float : Q -> string
}.

Section Program.

Context {Curve : Type} `{SvgPath.Ops Curve} `{SvgText.Ops Curve} `{FloatText}.

(** Lines 143-150 and 153-160: the body shared by the two loops of
    [parse_svg_paths]. *)
Fixpoint collect_paths (elems : list element) (paths : list Curve) : res (list Curve) :=
  match elems with
  | [] => Ret paths
  | path_elem :: rest =>
      let d := get (attrib_of path_elem) "d" "" in
      paths' <-
        (if String.eqb d "" then Ret paths
         else try_except
                (path <- call (SvgText.parse_path d) ;; Ret (paths ++ [path]))
                (Ret paths)) ;;
      collect_paths rest paths'
  end.

(** Lines 121-163, from the root element on. *)
Definition parse_svg_paths (root : element)
  : res (list Curve * list (string * string)) :=
  let viewbox := get (attrib_of root) "viewBox" "" in
  let width := get (attrib_of root) "width" "100%" in
  let height := get (attrib_of root) "height" "100%" in
  let svg_attrs := [("viewBox", viewbox); ("width", width); ("height", height)]%string in
  paths <- collect_paths (findall root svg_path_tag) [] ;;
  paths <- collect_paths (findall root "path") paths ;;
  Ret (paths, svg_attrs).

(** Lines 253-255. *)
Definition path_to_svg_d (path : Curve) : string := SvgText.d path.

(** Lines 292-299: the element added for one path. *)
Definition path_element (path : Curve) (stroke_width : Q) : element :=
  Element "path"
    [("d", path_to_svg_d path); ("fill", "none"); ("stroke", "black");
     ("stroke-width", str_of_float stroke_width);
     ("stroke-linecap", "round"); ("stroke-linejoin", "round")]%string
    [].

(** Lines 289-299: the loop adding the paths to the group. *)
Fixpoint add_paths (paths : list Curve) (stroke_width : Q) (group : list element)
  : list element :=
  match paths with
  | [] => group
  | path :: rest =>
      if (SvgPath.len path =? 0)%nat then add_paths rest stroke_width group
      else add_paths rest stroke_width (group ++ [path_element path stroke_width])
  end.

(** Lines 258-304, up to the root element that is written. *)
Definition write_svg_with_gaps (paths : list Curve) (svg_attrs : list (string * string))
           (stroke_width : Q) : res element :=
  let viewbox := get svg_attrs "viewBox" "0 0 1000 1000" in
  let viewbox_parts := split viewbox in
  vb_height <-
    (if (List.length viewbox_parts =? 4)%nat then
       h <- call (float_of_string (nth 3 viewbox_parts ""%string)) ;;
       Ret (str_of_float h)
     else Ret "1000"%string) ;;
  let root_attrib :=
    [("xmlns", svg_ns); ("viewBox", viewbox);
     ("width", get svg_attrs "width" "100%");
     ("height", get svg_attrs "height" "100%")]%string in
  let group_attrib :=
    [("transform"%string,
      String.append "scale(1,-1) translate(0,-" (String.append vb_height ")"))] in
  Ret (Element "svg" root_attrib
         [Element "g" group_attrib (add_paths paths stroke_width [])]).

(** Lines 346-359 of [main]: the loop that gaps every parsed path. *)
Fixpoint main_insert_gaps (fuel : nat) (paths : list Curve) (gap_length gap_spacing : Q)
         (gapped_paths : list Curve) : res (list Curve) :=
  match paths with
  | [] => Ret gapped_paths
  | path :: rest =>
      segments <- insert_gaps_in_path fuel path gap_length gap_spacing ;;
      main_insert_gaps fuel rest gap_length gap_spacing (gapped_paths ++ segments)
  end.

End Program.

(** The path elements of a document: the proper descendants of the root
    tagged as a path, with or without the SVG namespace. *)
Definition path_elements_of (root : element) : list element :=
  filter (fun e => String.eqb (tag_of e) svg_path_tag || String.eqb (tag_of e) "path")
         (flat_map iter (children_of root)).

(** Every stroke is written as the same text, which reads back as the
    unit stroke; the reader refuses every other text. *)
#[export] Instance Stroke_text : SvgText.Ops Stroke := {|
  SvgText.parse_path := fun s =>
    if String.eqb s "M 0 0 L 1 0" then Some (mkStroke 0 1 1 false) else None;
  SvgText.d := fun p => "M 0 0 L 1 0"%string
|}.

(** A reader of floats that knows two texts. *)
#[export] Instance Sample_float_text : FloatText := {|
  float_of_string := fun s =>
    if String.eqb s "1000" then Some 1000
    else if String.eqb s "48.5" then Some (97 # 2) else None;
  str_of_float := fun q => if Qeq_bool q 1000 then "1000.0"%string else "48.5"%string
|}.

(** ** The function as the interpreter computes it

    The same function over an abstract float arithmetic.  Nothing is
    assumed of the operations: [add], [sub] and [div] round as the
    machine rounds, may give infinities or not-a-number, and [ltb] and
    [eqb] are the comparisons [<] and [==] of floats.  Python's [max],
    [min] and the zero-division check are written out from them.  Every
    library call may raise: [len], [length] and [cropped] are optional.
    The rational model above is the instance with exact operations. *)

Module Py.

Class Float (F : Type) : Type := {
  add : F -> F -> F;
  sub : F -> F -> F;
  div : F -> F -> F;
  ltb : F -> F -> bool;
  eqb : F -> F -> bool;
  zero : F;
  one : F;
  two : F
}.

(** The finite numbers of an arithmetic and the rationals they are;
    [value x = None] for an infinity or not-a-number.  On finite
    numbers the comparisons are those of the rationals. *)
Class Finite (F : Type) `{Float F} : Type := {
  value : F -> option Q;
  ltb_value : forall x y a b,
    value x = Some a -> value y = Some b -> (ltb x y = true <-> a < b);
  eqb_value : forall x y a b,
    value x = Some a -> value y = Some b -> (eqb x y = true <-> a == b);
  value_zero : value zero = Some 0
}.

(** [len(path)], [path.length()] and [path.cropped(t0, t1)]; [None] when
    the call raises. *)
Class Ops (F Curve : Type) : Type := {
  len : Curve -> option nat;
  length : Curve -> option F;
  cropped : Curve -> F -> F -> option Curve
}.

Section Function.

Context {F Curve : Type} `{Float F} `{Ops F Curve}.

(** [max(a, b)]: [b] when [b > a], else [a]. *)
Definition pmax (a b : F) : F := if ltb a b then b else a.

(** [min(a, b)]: [b] when [b < a], else [a]. *)
Definition pmin (a b : F) : F := if ltb b a then b else a.

(** [x / y] on floats: [ZeroDivisionError] when [y == 0]. *)
Definition fdiv (x y : F) : res F :=
  if eqb y zero then Exc else Ret (div x y).

(** Lines 200-204. *)
Fixpoint gap_loop (fuel : nat) (total_length gap_length gap_spacing pos : F)
         (gap_positions : list (F * F)) : res (list (F * F)) :=
  if ltb pos total_length then
    match fuel with
    | O => Fuel
    | S fuel' =>
        let gap_start := pos in
        let gap_end := pmin (add pos gap_length) total_length in
        gap_loop fuel' total_length gap_length gap_spacing (add pos gap_spacing)
                 (gap_positions ++ [(gap_start, gap_end)])
    end
  else Ret gap_positions.

(** Lines 186-204; the divisions are by the literal [2.0] and cannot
    raise. *)
Definition gap_positions (fuel : nat) (total_length gap_length gap_spacing : F)
  : res (list (F * F)) :=
  if ltb total_length gap_spacing then
    let mid := div total_length two in
    let gap_start := pmax zero (sub mid (div gap_length two)) in
    let gap_end := pmin total_length (add mid (div gap_length two)) in
    if ltb zero gap_start || ltb gap_end total_length
    then Ret [(gap_start, gap_end)]
    else Ret []
  else
    gap_loop fuel total_length gap_length gap_spacing gap_spacing [].

(** Lines 217-231. *)
Definition segment_before_gap (path : Curve) (total_length segment_start gap_start : F)
           (segments_out : list Curve) : res (list Curve) :=
  try_except
    (t_start <- fdiv segment_start total_length ;;
     t_end <- fdiv gap_start total_length ;;
     let t_start := pmax zero (pmin one t_start) in
     let t_end := pmax zero (pmin one t_end) in
     if ltb t_start t_end then
       seg <- call (cropped path t_start t_end) ;;
       n <- call (len seg) ;;
       if (0 <? n)%nat then Ret (segments_out ++ [seg])
       else Ret segments_out
     else Ret segments_out)
    (Ret segments_out).

(** Lines 214-234. *)
Fixpoint build_segments (path : Curve) (total_length : F) (gaps : list (F * F))
         (segment_start : F) (segments_out : list Curve) : res (F * list Curve) :=
  match gaps with
  | [] => Ret (segment_start, segments_out)
  | (gap_start, gap_end) :: rest =>
      segments_out' <-
        (if ltb segment_start gap_start then
           segment_before_gap path total_length segment_start gap_start segments_out
         else Ret segments_out) ;;
      build_segments path total_length rest gap_end segments_out'
  end.

(** Lines 237-248. *)
Definition final_segment (path : Curve) (total_length segment_start : F)
           (segments_out : list Curve) : res (list Curve) :=
  if ltb segment_start total_length then
    try_except
      (t_start <- fdiv segment_start total_length ;;
       let t_start := pmax zero (pmin one t_start) in
       if ltb t_start one then
         seg <- call (cropped path t_start one) ;;
         n <- call (len seg) ;;
         if (0 <? n)%nat then Ret (segments_out ++ [seg])
         else Ret segments_out
       else Ret segments_out)
      (Ret segments_out)
  else Ret segments_out.

(** Lines 166-250. *)
Definition insert_gaps_in_path (fuel : nat) (path : Curve) (gap_length gap_spacing : F)
  : res (list Curve) :=
  n <- call (len path) ;;
  if (n =? 0)%nat then Ret []
  else
    total_length <- call (length path) ;;
    if eqb total_length zero then Ret [path]
    else
      gaps <- gap_positions fuel total_length gap_length gap_spacing ;;
      match gaps with
      | [] => Ret [path]
      | _ :: _ =>
          st <- build_segments path total_length gaps zero [] ;;
          segments_out <- final_segment path total_length (fst st) (snd st) ;;
          match segments_out with
          | [] => Ret [path]
          | _ :: _ => Ret segments_out
          end
      end.

(** *** Vocabulary *)

(** Clamping of a curve parameter (lines 222-223 and 240). *)
Definition clamp01 (t : F) : F := pmax zero (pmin one t).

(** The cursor after the gaps have been walked. *)
Fixpoint cursor_after (c : F) (gaps : list (F * F)) : F :=
  match gaps with
  | [] => c
  | (_, gap_end) :: rest => cursor_after gap_end rest
  end.

(** The parameter ranges the gap walk computes, in order. *)
Fixpoint loop_requests (total_length c : F) (gaps : list (F * F)) : list (F * F) :=
  match gaps with
  | [] => []
  | (gap_start, gap_end) :: rest =>
      (if ltb c gap_start
       then [(clamp01 (div c total_length), clamp01 (div gap_start total_length))]
       else [])
      ++ loop_requests total_length gap_end rest
  end.

(** All parameter ranges of one call. *)
Definition crop_requests (total_length : F) (gaps : list (F * F)) : list (F * F) :=
  loop_requests total_length zero gaps
  ++ (if ltb (cursor_after zero gaps) total_length
      then [(clamp01 (div (cursor_after zero gaps) total_length), one)]
      else []).

(** What one guarded crop appends: nothing when the range is empty,
    when [cropped] or [len] raises, or when the cropped curve has no
    primitive. *)
Definition attempt (path : Curve) (r : F * F) : list Curve :=
  if ltb (fst r) (snd r) then
    match cropped path (fst r) (snd r) with
    | Some seg =>
        match len seg with
        | Some n => if (0 <? n)%nat then [seg] else []
        | None => []
        end
    | None => []
    end
  else [].

(** [seg] was emitted for a range with [t_start < t_end]. *)
Definition proper_crop (path seg : Curve) : Prop :=
  exists t0 t1 n, ltb t0 t1 = true
    /\ cropped path t0 t1 = Some seg /\ len seg = Some (S n).

(** The value returned once the gaps are known (lines 206-250). *)
Definition segmentation (path : Curve) (total_length : F) (gaps : list (F * F))
  : list Curve :=
  match gaps with
  | [] => [path]
  | _ :: _ =>
      match flat_map (attempt path) (crop_requests total_length gaps) with
      | [] => [path]
      | seg :: segs => seg :: segs
      end
  end.

End Function.

End Py.

(** The exact arithmetic of the rationals. *)
#[export] Instance Exact : Py.Float Q := {|
  Py.add := Qplus;
  Py.sub := Qminus;
  Py.div := Qdiv;
  Py.ltb := fun x y => if Qlt_le_dec x y then true else false;
  Py.eqb := Qeq_bool;
  Py.zero := 0;
  Py.one := 1;
  Py.two := 2
|}.

(** Rationals with the two infinities and not-a-number, computed
    exactly: finite results do not round. *)
Inductive xq : Type :=
| Fin (q : Q)
| PInf
| NInf
| NaN.

Definition xq_add (x y : xq) : xq :=
  match x, y with
  | NaN, _ | _, NaN => NaN
  | PInf, NInf | NInf, PInf => NaN
  | PInf, _ | _, PInf => PInf
  | NInf, _ | _, NInf => NInf
  | Fin a, Fin b => Fin (a + b)
  end.

Definition xq_opp (x : xq) : xq :=
  match x with
  | Fin a => Fin (- a)
  | PInf => NInf
  | NInf => PInf
  | NaN => NaN
  end.

Definition xq_ltb (x y : xq) : bool :=
  match x, y with
  | NaN, _ | _, NaN => false
  | Fin a, Fin b => if Qlt_le_dec a b then true else false
  | NInf, NInf => false
  | NInf, _ => true
  | _, NInf => false
  | PInf, _ => false
  | Fin _, PInf => true
  end.

Definition xq_eqb (x y : xq) : bool :=
  match x, y with
  | Fin a, Fin b => Qeq_bool a b
  | PInf, PInf | NInf, NInf => true
  | _, _ => false
  end.

(** Division by a number that is not zero. *)
Definition xq_div (x y : xq) : xq :=
  match x, y with
  | NaN, _ | _, NaN => NaN
  | Fin a, Fin b => Fin (a / b)
  | Fin _, _ => Fin 0
  | _, Fin b => if Qlt_le_dec b 0 then xq_opp x else x
  | _, _ => NaN
  end.

#[export] Instance Extended : Py.Float xq := {|
  Py.add := xq_add;
  Py.sub := fun x y => xq_add x (xq_opp y);
  Py.div := xq_div;
  Py.ltb := xq_ltb;
  Py.eqb := xq_eqb;
  Py.zero := Fin 0;
  Py.one := Fin 1;
  Py.two := Fin 2
|}.

(** The binary64 arithmetic of the machine. *)
#[export] Instance Binary64 : Py.Float PrimFloat.float := {|
  Py.add := PrimFloat.add;
  Py.sub := PrimFloat.sub;
  Py.div := PrimFloat.div;
  Py.ltb := PrimFloat.ltb;
  Py.eqb := PrimFloat.eqb;
  Py.zero := PrimFloat.zero;
  Py.one := PrimFloat.one;
  Py.two := PrimFloat.two
|}.

(** The float of a small natural number. *)
Definition float_of_nat (n : nat) : PrimFloat.float :=
  PrimFloat.of_uint63 (Uint63.of_Z (Z.of_nat n)).

(** A stroke as a curve of the abstract interface, measured in the
    exact arithmetic. *)
#[export] Instance Stroke_py : Py.Ops Q Stroke := {|
  Py.len := fun p => Some (prims p);
  Py.length := fun p => Some (hi p - lo p);
  Py.cropped := fun p t0 t1 =>
    if brittle p then None
    else Some (mkStroke (lo p + t0 * (hi p - lo p)) (lo p + t1 * (hi p - lo p))
                        (prims p) false)
|}.

(** A curve the library cannot measure: [length()] raises. *)
Inductive Unmeasurable : Type := unmeasurable.

#[export] Instance Unmeasurable_py : Py.Ops Q Unmeasurable := {|
  Py.len := fun _ => Some 1%nat;
  Py.length := fun _ => None;
  Py.cropped := fun _ _ _ => None
|}.

(** A curve of one primitive whose length is infinite. *)
Inductive Endless : Type := endless.

#[export] Instance Endless_py : Py.Ops xq Endless := {|
  Py.len := fun _ => Some 1%nat;
  Py.length := fun _ => Some PInf;
  Py.cropped := fun _ _ _ => None
|}.

(** A curve whose crops return without raising, but return the whole
    curve whatever the range asked for; [extent] is the arc-length range
    it traces. *)
Record Sloppy : Type := mkSloppy {
  extent : Q * Q
}.

#[export] Instance Sloppy_ops : SvgPath.Ops Sloppy := {|
  SvgPath.len := fun _ => 1%nat;
  SvgPath.length := fun p => snd (extent p) - fst (extent p);
  SvgPath.cropped := fun p _ _ => Some p
|}.

(** The arc-length range of the uncropped stroke that a stroke traces. *)
Definition stroke_interval (p : Stroke) : Q * Q := (lo p, hi p).

(** The additions of the periodic loop are exact: adding the spacing
    to a position that is a positive multiple of it and lies below the
    path end gives the next multiple, unrounded. *)
Definition exact_steps {F : Type} `{Py.Finite F} (gap_spacing : F) (Lq sq : Q) : Prop :=
  forall (p : F) (q : Q) (k : nat),
    (1 <= k)%nat -> Py.value p = Some q -> q == Qn k * sq -> q < Lq ->
    exists q', Py.value (Py.add p gap_spacing) = Some q' /\ q' == q + sq.

(** Adding the spacing to a position that is not positive gives a finite
    position that is not positive. *)
Definition sinking {F : Type} `{Py.Finite F} (gap_spacing : F) : Prop :=
  forall (p : F) (q : Q),
    Py.value p = Some q -> q <= 0 ->
    exists q', Py.value (Py.add p gap_spacing) = Some q' /\ q' <= 0.

(** Every crop that returns, returns the curve over the range it was
    asked for: [interval seg] is the arc-length range of the path that
    [seg] traces. *)
Definition crops_exact {Curve : Type} `{SvgPath.Ops Curve}
           (interval : Curve -> Q * Q) (path : Curve) : Prop :=
  forall t0 t1 seg, SvgPath.cropped path t0 t1 = Some seg ->
    range_eq (interval seg) (t0 * SvgPath.length path, t1 * SvgPath.length path).

(** The ranges [spans] and the gaps tile a path of length [L]: all lie
    on the path, the spans are pairwise disjoint and ascending, and
    every point of the path lies in a span or in a gap, never in both. *)
Definition tiling (L : Q) (gaps spans : list (Q * Q)) : Prop :=
  Forall (fun r => 0 <= fst r /\ fst r <= snd r /\ snd r <= L) spans
  /\ Forall (fun r => 0 <= fst r /\ fst r < snd r /\ snd r <= L) gaps
  /\ StronglySorted before spans
  /\ StronglySorted starts_before spans
  /\ (forall x, 0 <= x -> x < L ->
        (covered x spans \/ covered x gaps)
        /\ ~ (covered x spans /\ covered x gaps)).

(** * Properties *)

(** ** Runs on the concrete stroke *)

Example scenario_A_run :
  out_lengths (insert_gaps_in_path 5 (stroke 100) 3 40) = Ret [40; 37; 17].
Proof. vm_compute. reflexivity. Qed.

Example scenario_B_run :
  out_lengths (insert_gaps_in_path 5 (stroke 20) 3 40) = Ret [17 # 2; 17 # 2].
Proof. vm_compute. reflexivity. Qed.

Example scenario_C_run :
  insert_gaps_in_path 5 (stroke 40) 3 40 = Ret [stroke 40].
Proof. vm_compute. reflexivity. Qed.

Example brittle_run :
  insert_gaps_in_path 5 (brittle_stroke 100) 3 40 = Ret [brittle_stroke 100].
Proof. vm_compute. reflexivity. Qed.

(** ** The guarded crops and the two loops *)

(** Halving, in the form linear arithmetic reads. *)
Ltac halves := unfold Qdiv in *; change (/ 2) with (1 # 2) in *.

Lemma fdiv_ok (x y : Q) : ~ y == 0 -> fdiv x y = Ret (x / y).
Proof.
  intros Hy. unfold fdiv.
  destruct (Qeq_bool y 0) eqn:E; [|reflexivity].
  apply Qeq_bool_iff in E. contradiction.
Qed.

Lemma fdiv_two (x : Q) : fdiv x 2 = Ret (x / 2).
Proof. reflexivity. Qed.

Section Loops.

Context {Curve : Type} `{SvgPath.Ops Curve}.
Variable path : Curve.
Variable L : Q.
Hypothesis L_nonzero : ~ L == 0.

Lemma segment_before_gap_eq (a b : Q) (out : list Curve) :
  segment_before_gap path L a b out
  = Ret (out ++ attempt path (clamp01 (a / L), clamp01 (b / L))).
Proof.
  unfold segment_before_gap, attempt, clamp01. rewrite !fdiv_ok by assumption.
  cbn [bind fst snd].
  destruct (Qlt_le_dec _ _); [|now rewrite app_nil_r].
  destruct (SvgPath.cropped path _ _) as [seg|]; cbn [call bind try_except];
    [|now rewrite app_nil_r].
  destruct (0 <? SvgPath.len seg)%nat; cbn [try_except];
    [reflexivity|now rewrite app_nil_r].
Qed.

Lemma final_segment_eq (c : Q) (out : list Curve) :
  final_segment path L c out
  = Ret (out ++ if Qlt_le_dec c L then attempt path (clamp01 (c / L), 1) else []).
Proof.
  unfold final_segment, attempt, clamp01.
  destruct (Qlt_le_dec c L); [|now rewrite app_nil_r].
  rewrite !fdiv_ok by assumption. cbn [bind fst snd].
  destruct (Qlt_le_dec _ _); [|now rewrite app_nil_r].
  destruct (SvgPath.cropped path _ _) as [seg|]; cbn [call bind try_except];
    [|now rewrite app_nil_r].
  destruct (0 <? SvgPath.len seg)%nat; cbn [try_except];
    [reflexivity|now rewrite app_nil_r].
Qed.

Lemma build_segments_eq (gaps : list (Q * Q)) :
  forall (c : Q) (out : list Curve),
    build_segments path L gaps c out
    = Ret (cursor_after c gaps,
           out ++ flat_map (attempt path) (loop_requests L c gaps)).
Proof.
  induction gaps as [|[a b] rest IH]; intros c out; cbn [build_segments].
  - cbn. now rewrite app_nil_r.
  - cbn [cursor_after loop_requests].
    destruct (Qlt_le_dec c a).
    + rewrite segment_before_gap_eq. cbn [bind]. rewrite IH.
      rewrite flat_map_app. cbn [flat_map]. now rewrite app_nil_r, app_assoc.
    + cbn [bind]. rewrite IH. reflexivity.
Qed.

End Loops.

Section Master.

Context {Curve : Type} `{SvgPath.Ops Curve}.

(** Once the gaps are placed the function returns, and what it returns
    is [segmentation]. *)
Lemma insert_gaps_in_path_eq (fuel : nat) (path : Curve) (g s : Q) (gaps : list (Q * Q)) :
  gap_positions fuel (SvgPath.length path) g s = Ret gaps ->
  insert_gaps_in_path fuel path g s
  = Ret (if (SvgPath.len path =? 0)%nat then []
         else if Qeq_bool (SvgPath.length path) 0 then [path]
              else segmentation path gaps).
Proof.
  intros Hg. unfold insert_gaps_in_path.
  destruct (SvgPath.len path =? 0)%nat; [reflexivity|].
  destruct (Qeq_bool (SvgPath.length path) 0) eqn:E; [reflexivity|].
  assert (Hn : ~ SvgPath.length path == 0)
    by (intros E'; apply Qeq_bool_iff in E'; congruence).
  rewrite Hg. cbn [bind]. unfold segmentation, crop_requests.
  destruct gaps as [|gp rest]; [reflexivity|].
  rewrite build_segments_eq by assumption. cbn [bind fst snd].
  rewrite final_segment_eq by assumption. cbn [bind app].
  rewrite flat_map_app.
  destruct (Qlt_le_dec _ _); cbn [flat_map]; rewrite ?app_nil_r;
    match goal with |- context [match ?l with [] => _ | _ :: _ => _ end] =>
      destruct l end; reflexivity.
Qed.

End Master.

(** ** Placing the gaps *)

Lemma Qn_S (n : nat) : Qn (S n) == Qn n + 1.
Proof.
  unfold Qn. rewrite Nat2Z.inj_succ, <- Z.add_1_r, inject_Z_plus. reflexivity.
Qed.

Lemma Qn_0 : Qn 0 == 0.
Proof. reflexivity. Qed.

Lemma Qn_le (k n : nat) : (k <= n)%nat -> Qn k <= Qn n.
Proof. intros Hk. unfold Qn. rewrite <- Zle_Qle. lia. Qed.

Lemma Qn_nonneg (n : nat) : 0 <= Qn n.
Proof. rewrite <- Qn_0. apply Qn_le. lia. Qed.

Lemma gap_loop_unfold (fuel : nat) (L g s pos : Q) (acc : list (Q * Q)) :
  gap_loop fuel L g s pos acc
  = if Qlt_le_dec pos L then
      match fuel with
      | O => Fuel
      | S fuel' => gap_loop fuel' L g s (pos + s) (acc ++ [(pos, Qmin (pos + g) L)])
      end
    else Ret acc.
Proof. destruct fuel; reflexivity. Qed.

(** The loop entered at [pos] runs its body exactly [n] times when the
    positions [pos], [pos + s], ... stay below [L] for [n] steps and no
    longer; a budget of [n] is then enough. *)
Lemma gap_loop_run (L g s : Q) (n : nat) :
  forall (fuel : nat) (pos : Q) (acc : list (Q * Q)),
    0 < s -> (n <= fuel)%nat ->
    (forall k, (k < n)%nat -> pos + Qn k * s < L) ->
    L <= pos + Qn n * s ->
    gap_loop fuel L g s pos acc = Ret (acc ++ gaps_from L g s pos n).
Proof.
  induction n as [|n IH]; intros fuel pos acc Hs Hfuel Hlt Hge;
    rewrite gap_loop_unfold.
  - rewrite Qn_0 in Hge. destruct (Qlt_le_dec pos L); [lra|].
    cbn. now rewrite app_nil_r.
  - assert (H0 : pos < L).
    { specialize (Hlt O ltac:(lia)). rewrite Qn_0 in Hlt. lra. }
    destruct (Qlt_le_dec pos L); [|lra].
    destruct fuel as [|fuel]; [lia|].
    rewrite IH; try assumption; try lia.
    + cbn [gaps_from]. now rewrite <- app_assoc.
    + intros k Hk. specialize (Hlt (S k) ltac:(lia)). rewrite Qn_S in Hlt. lra.
    + rewrite Qn_S in Hge. lra.
Qed.

(** With a spacing that is not positive the loop, once entered, never
    leaves: every budget is exhausted. *)
Lemma gap_loop_stuck (L g s : Q) (fuel : nat) :
  forall (pos : Q) (acc : list (Q * Q)),
    s <= 0 -> pos < L -> gap_loop fuel L g s pos acc = Fuel.
Proof.
  induction fuel as [|fuel IH]; intros pos acc Hs Hpos;
    rewrite gap_loop_unfold; destruct (Qlt_le_dec pos L); try lra.
  - reflexivity.
  - apply IH; lra.
Qed.

Lemma gaps_from_length (L g s pos : Q) (n : nat) :
  List.length (gaps_from L g s pos n) = n.
Proof. revert pos. induction n; intros; cbn; [reflexivity|now rewrite IHn]. Qed.

(** The [k]-th gap of the periodic loop (counting from 0) starts at
    [pos + k * s] and is cut at the path end. *)
Lemma gaps_from_nth (L g s : Q) (n : nat) :
  forall (pos : Q) (k : nat) (gap : Q * Q),
    nth_error (gaps_from L g s pos n) k = Some gap ->
    fst gap == pos + Qn k * s /\ snd gap = Qmin (fst gap + g) L.
Proof.
  induction n as [|n IH]; intros pos k gap Hk.
  - destruct k; discriminate.
  - destruct k as [|k]; cbn in Hk.
    + injection Hk as <-. cbn [fst snd]. rewrite Qn_0. split; [lra|reflexivity].
    + apply IH in Hk. destruct Hk as [Hf Hs]. rewrite Qn_S. split; [lra|assumption].
Qed.

(** Division by a positive spacing against its product. *)
Lemma div_mul_cancel (L s : Q) : 0 < s -> (L / s) * s == L.
Proof. intros Hs. field. lra. Qed.

Lemma ceiling_ge_1 (L s : Q) : 0 < s -> s <= L -> (1 <= Qceiling (L / s))%Z.
Proof.
  intros Hs HL.
  assert (H1 : 1 <= L / s) by (apply Qle_shift_div_l; lra).
  pose proof (Qle_ceiling (L / s)) as Hc.
  rewrite Zle_Qle. change (inject_Z 1) with 1. lra.
Qed.

Lemma Qn_periodic_count (L s : Q) :
  0 < s -> s <= L -> Qn (periodic_count L s) == inject_Z (Qceiling (L / s)) - 1.
Proof.
  intros Hs HL. pose proof (ceiling_ge_1 L s Hs HL) as Hc.
  unfold Qn, periodic_count. rewrite Z2Nat.id by lia.
  unfold Z.sub. rewrite inject_Z_plus. reflexivity.
Qed.

(** The periodic branch: [periodic_count] gaps, the first at [s]. *)
Lemma gap_positions_periodic (fuel : nat) (L g s : Q) :
  0 < s -> s <= L -> (periodic_count L s <= fuel)%nat ->
  gap_positions fuel L g s = Ret (gaps_from L g s s (periodic_count L s)).
Proof.
  intros Hs HL Hfuel. unfold gap_positions.
  destruct (Qlt_le_dec L s); [lra|].
  pose proof (Qn_periodic_count L s Hs HL) as Hn.
  pose proof (Qle_ceiling (L / s)) as Hc1.
  pose proof (Qceiling_lt (L / s)) as Hc2.
  pose proof (div_mul_cancel L s Hs) as Hx.
  unfold Z.sub in Hc2. rewrite inject_Z_plus in Hc2.
  change (inject_Z (Qceiling (L / s)) - 1 < L / s) in Hc2.
  set (x := L / s) in *. clearbody x.
  rewrite (gap_loop_run L g s (periodic_count L s)); try assumption.
  - reflexivity.
  - intros k Hk.
    assert (Hk' : Qn k + 1 <= Qn (periodic_count L s)).
    { rewrite <- Qn_S. apply Qn_le. lia. }
    assert (Hlt : Qn k + 1 < x) by lra.
    apply (Qmult_lt_compat_r _ _ s Hs) in Hlt. lra.
  - assert (Hle : x <= Qn (periodic_count L s) + 1) by lra.
    apply (Qmult_le_compat_r _ _ s) in Hle; lra.
Qed.

Lemma periodic_count_le_bound (L s : Q) : (periodic_count L s <= fuel_bound L s)%nat.
Proof. unfold periodic_count, fuel_bound. lia. Qed.

Lemma ceiling_floor_cases (x : Q) :
  (inject_Z (Qfloor x) == x /\ Qceiling x = Qfloor x)
  \/ (~ inject_Z (Qfloor x) == x /\ Qceiling x = (Qfloor x + 1)%Z).
Proof.
  pose proof (Qfloor_le x) as Hf1. pose proof (Qlt_floor x) as Hf2.
  pose proof (Qle_ceiling x) as Hc1. pose proof (Qceiling_lt x) as Hc2.
  pose proof (Qle_floor_ceiling x) as Hfc.
  destruct (Qeq_dec (inject_Z (Qfloor x)) x) as [E|E]; [left|right]; split; trivial.
  - assert (Qceiling x - 1 < Qfloor x)%Z
      by (rewrite Zlt_Qlt; apply Qlt_le_trans with x; [exact Hc2|rewrite E; apply Qle_refl]).
    assert (Qfloor x <= Qceiling x)%Z by (rewrite Zle_Qle; exact Hfc). lia.
  - assert (Qfloor x < Qceiling x)%Z.
    { rewrite Zlt_Qlt. apply Qlt_le_trans with x; [|exact Hc1].
      apply Qle_lteq in Hf1. destruct Hf1 as [Hlt|Heq]; [exact Hlt|contradiction]. }
    assert (Qceiling x - 1 < Qfloor x + 1)%Z
      by (rewrite Zlt_Qlt; apply Qlt_trans with x; assumption).
    lia.
Qed.

(** ** Counting the output *)

Section Counting.

Context {Curve : Type} `{SvgPath.Ops Curve}.

Lemma attempt_length (path : Curve) (r : Q * Q) :
  (List.length (attempt path r) <= 1)%nat.
Proof.
  unfold attempt. destruct (Qlt_le_dec _ _); [|cbn; lia].
  destruct (SvgPath.cropped path _ _) as [seg|]; [|cbn; lia].
  destruct (0 <? SvgPath.len seg)%nat; cbn; lia.
Qed.

Lemma flat_map_attempt_length (path : Curve) (reqs : list (Q * Q)) :
  (List.length (flat_map (attempt path) reqs) <= List.length reqs)%nat.
Proof.
  induction reqs as [|r reqs IH]; cbn; [lia|].
  rewrite length_app. pose proof (attempt_length path r). lia.
Qed.

Lemma loop_requests_length (L : Q) (gaps : list (Q * Q)) :
  forall c, (List.length (loop_requests L c gaps) <= List.length gaps)%nat.
Proof.
  induction gaps as [|[a b] rest IH]; intros c; cbn; [lia|].
  rewrite length_app. specialize (IH b).
  destruct (Qlt_le_dec c a); cbn; lia.
Qed.

Lemma crop_requests_length (L : Q) (gaps : list (Q * Q)) :
  (List.length (crop_requests L gaps) <= List.length gaps + 1)%nat.
Proof.
  unfold crop_requests. rewrite length_app.
  pose proof (loop_requests_length L gaps 0).
  destruct (Qlt_le_dec _ _); cbn; lia.
Qed.

Lemma segmentation_length (path : Curve) (gaps : list (Q * Q)) :
  (List.length (segmentation path gaps) <= List.length gaps + 1)%nat.
Proof.
  unfold segmentation. destruct gaps as [|gp rest]; [cbn; lia|].
  pose proof (flat_map_attempt_length path
                (crop_requests (SvgPath.length path) (gp :: rest))) as H1.
  pose proof (crop_requests_length (SvgPath.length path) (gp :: rest)) as H2.
  destruct (flat_map _ _); cbn in *; lia.
Qed.

Lemma segmentation_nonempty (path : Curve) (gaps : list (Q * Q)) :
  segmentation path gaps <> [].
Proof.
  unfold segmentation. destruct gaps; [discriminate|].
  destruct (flat_map _ _); discriminate.
Qed.

End Counting.

(** ** C1: the periodic gaps *)

(** C1, as the specification states it, fails: a path whose length is
    the gap spacing itself (40 and 40) gets no gap, while
    floor(40 / 40) = 1.  So the number of recorded gaps is not
    floor(total_length / gap_spacing) for every path with
    total_length >= gap_spacing. *)
Lemma gap_count_is_not_floor :
  ~ (forall (fuel : nat) (L g s : Q) (gaps : list (Q * Q)),
        0 < g -> 0 < s -> s <= L ->
        gap_positions fuel L g s = Ret gaps ->
        Z.of_nat (List.length gaps) = Qfloor (L / s)).
Proof.
  intros Hall.
  specialize (Hall 5%nat 40 3 40 [] ltac:(reflexivity) ltac:(reflexivity)
                   ltac:(discriminate) ltac:(reflexivity)).
  vm_compute in Hall. discriminate.
Qed.

(** ** The gaps that can be recorded *)

(** The centered gap of the short branch. *)
Lemma gap_positions_short (fuel : nat) (L g s : Q) :
  L < s ->
  gap_positions fuel L g s
  = Ret (if Qlt_le_dec 0 (Qmax 0 (L / 2 - g / 2))
         then [(Qmax 0 (L / 2 - g / 2), Qmin L (L / 2 + g / 2))]
         else if Qlt_le_dec (Qmin L (L / 2 + g / 2)) L
              then [(Qmax 0 (L / 2 - g / 2), Qmin L (L / 2 + g / 2))]
              else []).
Proof.
  intros HL. unfold gap_positions. destruct (Qlt_le_dec L s); [|lra].
  rewrite !fdiv_two. cbn [bind].
  destruct (Qlt_le_dec 0 _); [reflexivity|].
  destruct (Qlt_le_dec _ L); reflexivity.
Qed.

(** With a positive spacing and the budget [fuel_bound] the gap
    placement returns, and its result has one of two shapes. *)
Lemma gap_positions_shape (fuel : nat) (L g s : Q) :
  0 < s -> (fuel_bound L s <= fuel)%nat ->
  exists gaps : list (Q * Q),
    gap_positions fuel L g s = Ret gaps
    /\ ((L < s
         /\ (gaps = []
             \/ gaps = [(Qmax 0 (L / 2 - g / 2), Qmin L (L / 2 + g / 2))]))
        \/ (s <= L /\ gaps = gaps_from L g s s (periodic_count L s))).
Proof.
  intros Hs Hfuel. destruct (Qlt_le_dec L s) as [HL|HL].
  - rewrite gap_positions_short by assumption.
    eexists. split; [reflexivity|]. left. split; [assumption|].
    destruct (Qlt_le_dec 0 _); [now right|].
    destruct (Qlt_le_dec _ L); [now right|now left].
  - pose proof (periodic_count_le_bound L s).
    rewrite gap_positions_periodic by (assumption || lia).
    eexists. split; [reflexivity|]. right. now split.
Qed.

Lemma gaps_from_starts (L g s : Q) (n : nat) :
  forall pos, 0 < s -> Forall (fun r => pos <= fst r) (gaps_from L g s pos n).
Proof.
  induction n as [|n IH]; intros pos Hs; cbn [gaps_from]; constructor.
  - cbn. lra.
  - eapply Forall_impl; [|apply (IH (pos + s) Hs)]. cbn. intros r Hr. lra.
Qed.

Lemma gaps_from_ascending (L g s : Q) (n : nat) :
  forall pos, 0 < s -> StronglySorted starts_before (gaps_from L g s pos n).
Proof.
  induction n as [|n IH]; intros pos Hs; cbn [gaps_from]; constructor.
  - now apply IH.
  - eapply Forall_impl; [|apply (gaps_from_starts L g s n (pos + s) Hs)].
    unfold starts_before. cbn. intros r Hr. lra.
Qed.

Lemma gaps_from_apart (L g s : Q) (n : nat) :
  forall pos, 0 < s -> g <= s -> StronglySorted before (gaps_from L g s pos n).
Proof.
  induction n as [|n IH]; intros pos Hs Hg; cbn [gaps_from]; constructor.
  - now apply IH.
  - eapply Forall_impl; [|apply (gaps_from_starts L g s n (pos + s) Hs)].
    unfold before. cbn [fst snd]. intros r Hr.
    pose proof (Q.le_min_l (pos + g) L). lra.
Qed.

(** ** C6: order and overlap of the recorded gaps *)

(** C6, as the specification states it, fails: with gap_length 15 above
    gap_spacing 10 a path of length 30 gets the gaps [10, 25) and
    [20, 30), which overlap.  So the recorded gaps are not pairwise
    non-overlapping for all positive gap_length and gap_spacing. *)
Lemma long_gaps_overlap :
  ~ (forall (fuel : nat) (L g s : Q) (gaps : list (Q * Q)),
        0 < g -> 0 < s ->
        gap_positions fuel L g s = Ret gaps ->
        StronglySorted starts_before gaps /\ StronglySorted before gaps).
Proof.
  intros Hall.
  destruct (Hall 5%nat 30 15 10 [(10, Qmin (10 + 15) 30); (10 + 10, Qmin (10 + 10 + 15) 30)]
                 ltac:(reflexivity) ltac:(reflexivity) ltac:(reflexivity)) as [_ Hb].
  apply StronglySorted_inv in Hb. destruct Hb as [_ Hb].
  apply Forall_inv in Hb. vm_compute in Hb. apply Hb. reflexivity.
Qed.

(** C6 (amended): for every positive gap_spacing (and any gap_length) the
    gap placement returns, and the gaps it records are in strictly
    ascending order of their start positions; they are pairwise
    non-overlapping (each ends where or before every later one starts)
    whenever gap_length <= gap_spacing. *)
Theorem gaps_ascending (fuel : nat) (L g s : Q) :
  0 < s -> (fuel_bound L s <= fuel)%nat ->
  exists gaps : list (Q * Q),
    gap_positions fuel L g s = Ret gaps
    /\ StronglySorted starts_before gaps
    /\ (g <= s -> StronglySorted before gaps).
Proof.
  intros Hs Hfuel.
  destruct (gap_positions_shape fuel L g s Hs Hfuel)
    as (gaps & Hg & [[_ [->| ->]]|[_ ->]]); eexists; (split; [exact Hg|]).
  - split; intros; constructor.
  - split; intros; repeat constructor.
  - split; [now apply gaps_from_ascending|]. intros Hle. now apply gaps_from_apart.
Qed.

(** [gaps_ascending] at length 100, gap length 3 and spacing 40. *)
Lemma gaps_ascending_witness :
  exists gaps : list (Q * Q),
    gap_positions 5 100 3 40 = Ret gaps
    /\ StronglySorted starts_before gaps
    /\ (3 <= 40 -> StronglySorted before gaps).
Proof.
  apply (gaps_ascending 5 100 3 40).
  - reflexivity.
  - vm_compute. lia.
Defined.

(** ** C7: a path exactly one spacing long *)

(** C7: for a curve (with at least one primitive) whose total arc length
    equals gap_spacing, no gap is recorded, whatever the budget, because
    the loop condition fails at pos = gap_spacing; the function returns
    [[curve]]. *)
Theorem length_equal_spacing
  {Curve : Type} `{SvgPath.Ops Curve}
  (path : Curve) (g s : Q) (fuel : nat) :
  (0 < SvgPath.len path)%nat ->
  SvgPath.length path == s ->
  gap_positions fuel (SvgPath.length path) g s = Ret []
  /\ insert_gaps_in_path fuel path g s = Ret [path].
Proof.
  intros Hlen HL.
  assert (Hg : gap_positions fuel (SvgPath.length path) g s = Ret []).
  { unfold gap_positions. destruct (Qlt_le_dec _ s); [lra|].
    rewrite gap_loop_unfold. destruct (Qlt_le_dec s _); [lra|reflexivity]. }
  split; [exact Hg|].
  rewrite (insert_gaps_in_path_eq fuel path g s [] Hg).
  destruct (SvgPath.len path =? 0)%nat eqn:E; [apply Nat.eqb_eq in E; lia|].
  destruct (Qeq_bool _ 0); reflexivity.
Qed.

(** [length_equal_spacing] at a stroke of length 40 with spacing 40. *)
Lemma length_equal_spacing_witness :
  gap_positions 0 (SvgPath.length (stroke 40)) 3 40 = Ret []
  /\ insert_gaps_in_path 0 (stroke 40) 3 40 = Ret [stroke 40].
Proof.
  apply (length_equal_spacing (stroke 40) 3 40 0).
  - cbn. lia.
  - reflexivity.
Defined.

(** ** C9: degenerate curves *)

(** C9: a curve with zero primitives gives the empty sequence, and a
    curve with primitives whose total arc length is 0 gives [[curve]];
    both calls return normally, for every budget and all parameters. *)
Theorem degenerate_curves
  {Curve : Type} `{SvgPath.Ops Curve}
  (path : Curve) (g s : Q) (fuel : nat) :
  (SvgPath.len path = 0%nat -> insert_gaps_in_path fuel path g s = Ret [])
  /\ ((0 < SvgPath.len path)%nat -> SvgPath.length path == 0 ->
      insert_gaps_in_path fuel path g s = Ret [path]).
Proof.
  unfold insert_gaps_in_path. split.
  - intros ->. reflexivity.
  - intros Hlen HL.
    destruct (SvgPath.len path =? 0)%nat eqn:E; [apply Nat.eqb_eq in E; lia|].
    apply Qeq_bool_iff in HL. now rewrite HL.
Qed.

(** [degenerate_curves] at a stroke without primitives and at a stroke
    of length 0. *)
Lemma degenerate_curves_witness :
  insert_gaps_in_path 0 (mkStroke 0 7 0 false) 3 40 = Ret []
  /\ insert_gaps_in_path 0 (stroke 0) 3 40 = Ret [stroke 0].
Proof.
  split.
  - apply (degenerate_curves (mkStroke 0 7 0 false) 3 40 0). reflexivity.
  - apply (degenerate_curves (stroke 0) 3 40 0).
    + cbn. lia.
    + reflexivity.
Defined.

(** ** What a call emits *)

Lemma clamp01_range (t : Q) : 0 <= clamp01 t /\ clamp01 t <= 1.
Proof.
  unfold clamp01. split; [apply Q.le_max_l|].
  apply Q.max_lub; [lra|apply Q.le_min_l].
Qed.

Lemma clamp01_id (t : Q) : 0 <= t -> t <= 1 -> clamp01 t == t.
Proof.
  intros H0 H1. unfold clamp01.
  rewrite (Q.min_r 1 t) by assumption. now rewrite Q.max_r.
Qed.

Lemma loop_requests_unit (L : Q) (gaps : list (Q * Q)) :
  forall c, Forall (fun r => 0 <= fst r /\ snd r <= 1) (loop_requests L c gaps).
Proof.
  induction gaps as [|[a b] rest IH]; intros c; cbn [loop_requests]; [constructor|].
  apply Forall_app. split; [|apply IH].
  destruct (Qlt_le_dec c a); constructor; [|constructor].
  cbn [fst snd]. split; apply clamp01_range.
Qed.

Lemma crop_requests_unit (L : Q) (gaps : list (Q * Q)) :
  Forall (fun r => 0 <= fst r /\ snd r <= 1) (crop_requests L gaps).
Proof.
  unfold crop_requests. apply Forall_app. split; [apply loop_requests_unit|].
  destruct (Qlt_le_dec _ _); constructor; [|constructor].
  cbn [fst snd]. split; [apply clamp01_range|lra].
Qed.

Section Emitted.

Context {Curve : Type} `{SvgPath.Ops Curve}.

Lemma attempt_fails (path : Curve) (r : Q * Q) :
  (fst r < snd r -> crop_fails path r) -> attempt path r = [].
Proof.
  unfold attempt, crop_fails. intros Hf.
  destruct (Qlt_le_dec _ _) as [Hlt|]; [|reflexivity]. specialize (Hf Hlt).
  destruct (SvgPath.cropped path _ _) as [seg|]; [|reflexivity].
  now rewrite Hf.
Qed.

Lemma flat_map_attempt_fails (path : Curve) (reqs : list (Q * Q)) :
  Forall (fun r => fst r < snd r -> crop_fails path r) reqs ->
  flat_map (attempt path) reqs = [].
Proof.
  induction 1 as [|r reqs Hr _ IH]; cbn [flat_map]; [reflexivity|].
  now rewrite attempt_fails, IH.
Qed.

Lemma attempt_proper (path : Curve) (r : Q * Q) :
  0 <= fst r -> snd r <= 1 -> Forall (proper_crop path) (attempt path r).
Proof.
  intros H0 H1. unfold attempt.
  destruct (Qlt_le_dec _ _) as [Hlt|]; [|constructor].
  destruct (SvgPath.cropped path _ _) as [seg|] eqn:E; [|constructor].
  destruct (0 <? SvgPath.len seg)%nat eqn:El; constructor; [|constructor].
  exists (fst r), (snd r). apply Nat.ltb_lt in El. now repeat split.
Qed.

Lemma flat_map_attempt_proper (path : Curve) (reqs : list (Q * Q)) :
  Forall (fun r => 0 <= fst r /\ snd r <= 1) reqs ->
  Forall (proper_crop path) (flat_map (attempt path) reqs).
Proof.
  induction 1 as [|r reqs [H0 H1] _ IH]; cbn [flat_map]; [constructor|].
  apply Forall_app. split; [now apply attempt_proper|exact IH].
Qed.

Lemma segmentation_emits (path : Curve) (gaps : list (Q * Q)) :
  Forall (fun seg => seg = path \/ proper_crop path seg) (segmentation path gaps).
Proof.
  unfold segmentation. destruct gaps as [|gp rest]; [repeat constructor|].
  pose proof (flat_map_attempt_proper path _
                (crop_requests_unit (SvgPath.length path) (gp :: rest))) as Hp.
  destruct (flat_map _ _) as [|seg segs]; [repeat constructor|].
  eapply Forall_impl; [|exact Hp]. intros; now right.
Qed.

End Emitted.

(** ** C5: the result is never empty *)

(** C5: for every curve with at least one primitive and positive total
    length (gap_spacing positive, budget sufficient) the function returns
    a non-empty sequence; when no gap was recorded, and when every
    attempted crop (every computed range with t_start < t_end) raised or
    gave a curve without primitives, it returns exactly [[curve]]. *)
Theorem never_empty
  {Curve : Type} `{SvgPath.Ops Curve}
  (path : Curve) (g s : Q) (fuel : nat) :
  (0 < SvgPath.len path)%nat -> 0 < SvgPath.length path ->
  0 < s -> (fuel_bound (SvgPath.length path) s <= fuel)%nat ->
  exists (gaps : list (Q * Q)) (out : list Curve),
    gap_positions fuel (SvgPath.length path) g s = Ret gaps
    /\ insert_gaps_in_path fuel path g s = Ret out
    /\ out <> []
    /\ (gaps = [] -> out = [path])
    /\ (Forall (fun r => fst r < snd r -> crop_fails path r)
               (crop_requests (SvgPath.length path) gaps) ->
        out = [path]).
Proof.
  intros Hlen HL Hs Hfuel.
  destruct (gap_positions_shape fuel _ g s Hs Hfuel) as (gaps & Hg & _).
  exists gaps, (segmentation path gaps). split; [exact Hg|]. split.
  - rewrite (insert_gaps_in_path_eq fuel path g s gaps Hg).
    destruct (SvgPath.len path =? 0)%nat eqn:E; [apply Nat.eqb_eq in E; lia|].
    destruct (Qeq_bool _ 0) eqn:E0; [apply Qeq_bool_iff in E0; lra|reflexivity].
  - split; [apply segmentation_nonempty|]. split.
    + intros ->. reflexivity.
    + intros Hf. unfold segmentation. destruct gaps; [reflexivity|].
      now rewrite flat_map_attempt_fails.
Qed.

(** [never_empty] at a brittle stroke of length 100, whose every crop
    raises. *)
Lemma never_empty_witness :
  exists (gaps : list (Q * Q)) (out : list Stroke),
    gap_positions 5 (SvgPath.length (brittle_stroke 100)) 3 40 = Ret gaps
    /\ insert_gaps_in_path 5 (brittle_stroke 100) 3 40 = Ret out
    /\ out <> []
    /\ (gaps = [] -> out = [brittle_stroke 100])
    /\ (Forall (fun r => fst r < snd r -> crop_fails (brittle_stroke 100) r)
               (crop_requests (SvgPath.length (brittle_stroke 100)) gaps) ->
        out = [brittle_stroke 100]).
Proof.
  apply (never_empty (brittle_stroke 100) 3 40 5).
  - cbn. lia.
  - reflexivity.
  - reflexivity.
  - vm_compute. lia.
Defined.

(** ** The arc-length ranges between the gaps *)

Lemma arc_spans_within (L : Q) (gaps : list (Q * Q)) :
  forall c, c <= L -> walkable L c gaps ->
    Forall (fun r => c <= fst r /\ fst r < snd r /\ snd r <= L) (arc_spans L c gaps).
Proof.
  induction gaps as [|[a b] rest IH]; intros c Hc Hw; cbn [arc_spans].
  - destruct (Qlt_le_dec c L); repeat constructor; cbn; lra.
  - destruct Hw as (Hab & HbL & Hcb & _ & Hw).
    apply Forall_app. split.
    + destruct (Qlt_le_dec c a); repeat constructor; cbn; lra.
    + eapply Forall_impl; [|apply (IH b HbL Hw)]. cbn. intros r Hr. lra.
Qed.

Lemma arc_spans_sorted (L : Q) (gaps : list (Q * Q)) :
  forall c, c <= L -> walkable L c gaps ->
    StronglySorted before (arc_spans L c gaps)
    /\ StronglySorted starts_before (arc_spans L c gaps).
Proof.
  induction gaps as [|[a b] rest IH]; intros c Hc Hw; cbn [arc_spans].
  - destruct (Qlt_le_dec c L); split; repeat constructor.
  - destruct Hw as (Hab & HbL & Hcb & _ & Hw).
    destruct (IH b HbL Hw) as [IH1 IH2].
    pose proof (arc_spans_within L rest b HbL Hw) as Hin.
    destruct (Qlt_le_dec c a); cbn [app]; [|now split].
    split; constructor; trivial;
      (eapply Forall_impl; [|exact Hin]); unfold before, starts_before;
      cbn; intros r Hr; lra.
Qed.

(** Every point of the path from the cursor on lies in a range between
    gaps or in a gap. *)
Lemma arc_spans_cover (L : Q) (gaps : list (Q * Q)) :
  forall c x, walkable L c gaps -> c <= x -> x < L ->
    covered x (arc_spans L c gaps) \/ covered x gaps.
Proof.
  unfold covered.
  induction gaps as [|[a b] rest IH]; intros c x Hw Hcx HxL; cbn [arc_spans].
  - destruct (Qlt_le_dec c L); [|lra]. left. constructor. cbn. lra.
  - destruct Hw as (Hab & HbL & Hcb & _ & Hw).
    destruct (Qlt_le_dec x b) as [Hxb|Hxb].
    + destruct (Qlt_le_dec x a) as [Hxa|Hxa].
      * left. destruct (Qlt_le_dec c a); [|lra]. constructor. cbn. lra.
      * right. constructor. cbn. lra.
    + destruct (IH b x Hw Hxb HxL) as [Hs|Hg].
      * left. apply Exists_app. now right.
      * right. now constructor 2.
Qed.

(** No point lies both in a range between gaps and in a gap. *)
Lemma arc_spans_apart (L : Q) (gaps : list (Q * Q)) :
  forall c x, c <= L -> walkable L c gaps ->
    covered x (arc_spans L c gaps) -> ~ covered x gaps.
Proof.
  unfold covered.
  induction gaps as [|[a b] rest IH]; intros c x Hc Hw Hs Hg; cbn [arc_spans] in Hs.
  - inversion Hg.
  - destruct Hw as (Hab & HbL & Hcb & Hst & Hw).
    apply Exists_app in Hs. destruct Hs as [Hs|Hs].
    + destruct (Qlt_le_dec c a); [|inversion Hs].
      apply Exists_cons in Hs. destruct Hs as [Hs|Hs]; [|inversion Hs].
      cbn in Hs. apply Exists_cons in Hg. destruct Hg as [Hg|Hg]; [cbn in Hg; lra|].
      apply Exists_exists in Hg. destruct Hg as (r & Hr & Hxr).
      rewrite Forall_forall in Hst. specialize (Hst r Hr). lra.
    + apply Exists_cons in Hg. destruct Hg as [Hg|Hg].
      * pose proof (arc_spans_within L rest b HbL Hw) as Hin.
        apply Exists_exists in Hs. destruct Hs as (r & Hr & Hxr).
        rewrite Forall_forall in Hin. specialize (Hin r Hr). cbn in Hg. lra.
      * exact (IH b x HbL Hw Hs Hg).
Qed.

(** ** The gaps the placement records can be walked *)

Lemma gaps_from_walkable (L g s : Q) (n : nat) :
  forall pos c,
    0 < g -> 0 < s ->
    (forall k, (k < n)%nat -> pos + Qn k * s < L) ->
    c <= Qmin (pos + g) L ->
    walkable L c (gaps_from L g s pos n).
Proof.
  induction n as [|n IH]; intros pos c Hg Hs Hlt Hc; cbn [gaps_from walkable];
    [exact I|].
  assert (H0 : pos < L).
  { specialize (Hlt O ltac:(lia)). rewrite Qn_0 in Hlt. lra. }
  destruct (Q.min_spec (pos + g) L) as [[Hm E]|[Hm E]];
    (split; [lra|]); (split; [lra|]); (split; [lra|]);
    (split; [eapply Forall_impl; [|apply (gaps_from_starts L g s n (pos + s) Hs)];
             cbn; intros r Hr; lra|]);
    (apply IH; trivial;
     [intros k Hk; specialize (Hlt (S k) ltac:(lia)); rewrite Qn_S in Hlt; lra|]);
    destruct (Q.min_spec (pos + s + g) L) as [[Hm' E']|[Hm' E']]; lra.
Qed.

(** With positive parameters and a non-negative length the placement
    returns gaps that can be walked from 0 and start beyond 0. *)
Lemma gap_positions_walkable (fuel : nat) (L g s : Q) :
  0 < g -> 0 < s -> 0 <= L -> (fuel_bound L s <= fuel)%nat ->
  exists gaps : list (Q * Q),
    gap_positions fuel L g s = Ret gaps
    /\ walkable L 0 gaps
    /\ Forall (fun r => 0 < fst r) gaps.
Proof.
  intros Hg Hs HL Hfuel. destruct (Qlt_le_dec L s) as [HLs|HLs].
  - rewrite gap_positions_short by assumption.
    eexists. split; [reflexivity|].
    destruct (Q.max_spec 0 (L / 2 - g / 2)) as [[Hm E]|[Hm E]];
      destruct (Q.min_spec L (L / 2 + g / 2)) as [[Hm' E']|[Hm' E']];
      destruct (Qlt_le_dec 0 _); try destruct (Qlt_le_dec _ L);
      try (exfalso; halves; lra);
      first [ solve [split; [exact I|constructor]]
            | cbn [walkable]; split;
              [ split; [halves; lra|]; split; [halves; lra|]; split; [halves; lra|];
                split; [constructor|exact I]
              | constructor; [cbn [fst]; lra|constructor] ] ].
  - pose proof (periodic_count_le_bound L s).
    rewrite gap_positions_periodic by (assumption || lia).
    eexists. split; [reflexivity|]. split.
    + apply gaps_from_walkable; trivial.
      * intros k Hk.
        pose proof (Qn_periodic_count L s Hs HLs) as Hn.
        pose proof (Qceiling_lt (L / s)) as Hc2.
        pose proof (div_mul_cancel L s Hs) as Hx.
        unfold Z.sub in Hc2. rewrite inject_Z_plus in Hc2.
        change (inject_Z (Qceiling (L / s)) - 1 < L / s) in Hc2.
        assert (Hk' : Qn k + 1 <= Qn (periodic_count L s)).
        { rewrite <- Qn_S. apply Qn_le. lia. }
        set (x := L / s) in *. clearbody x.
        assert (Hlt : Qn k + 1 < x) by lra.
        apply (Qmult_lt_compat_r _ _ s Hs) in Hlt. lra.
      * destruct (Q.min_spec (s + g) L) as [[Hm E]|[Hm E]]; lra.
    + eapply Forall_impl; [|apply (gaps_from_starts L g s _ s Hs)].
      cbn. intros r Hr. lra.
Qed.

Lemma walkable_within (L : Q) (gaps : list (Q * Q)) :
  forall c, walkable L c gaps -> Forall (fun r => 0 < fst r) gaps ->
    Forall (fun r => 0 <= fst r /\ fst r < snd r /\ snd r <= L) gaps.
Proof.
  induction gaps as [|[a b] rest IH]; intros c Hw Hp; constructor.
  - destruct Hw as (Hab & HbL & _). apply Forall_inv in Hp. cbn in *. lra.
  - destruct Hw as (_ & _ & _ & _ & Hw). apply Forall_inv_tail in Hp.
    exact (IH b Hw Hp).
Qed.

(** ** Parameters of arc lengths *)

Lemma param_unit (L a : Q) :
  0 < L -> 0 <= a -> a <= L -> 0 <= a / L /\ a / L <= 1.
Proof.
  intros HL H0 H1. split.
  - apply Qle_shift_div_l; lra.
  - apply Qle_shift_div_r; lra.
Qed.

Lemma param_lt (L a b : Q) : 0 < L -> a < b -> a / L < b / L.
Proof.
  intros HL Hab. unfold Qdiv. apply Qmult_lt_compat_r; [|assumption].
  now apply Qinv_lt_0_compat.
Qed.

Lemma param_end (L : Q) : 0 < L -> 1 == L / L.
Proof. intros HL. field. lra. Qed.

(** ** The segments of a curve whose crops succeed *)

Section Spans.

Context {Curve : Type} `{SvgPath.Ops Curve}.
Variable path : Curve.
Let L := SvgPath.length path.
Hypothesis L_pos : 0 < L.
Hypothesis Hcrop : crops_succeed path.

Lemma attempt_succeeds (a b t0 t1 : Q) :
  0 <= a -> a < b -> b <= L -> t0 == a / L -> t1 == b / L ->
  exists seg, attempt path (t0, t1) = [seg] /\ segment_of path seg (a, b).
Proof.
  intros H0 Hab HbL Ht0 Ht1.
  destruct (param_unit L a L_pos ltac:(lra) ltac:(lra)) as [Ha0 Ha1].
  destruct (param_unit L b L_pos ltac:(lra) ltac:(lra)) as [Hb0 Hb1].
  pose proof (param_lt L a b L_pos Hab) as Hlt.
  assert (Hlt' : t0 < t1) by (rewrite Ht0, Ht1; exact Hlt).
  destruct (Hcrop t0 t1) as (seg & Hseg & Hlen);
    [rewrite Ht0; assumption|assumption|rewrite Ht1; assumption|].
  exists seg. unfold attempt. cbn [fst snd].
  destruct (Qlt_le_dec t0 t1); [|lra]. rewrite Hseg.
  apply Nat.ltb_lt in Hlen as Hlen'. rewrite Hlen'. split; [reflexivity|].
  right. exists t0, t1. repeat split; trivial; cbn [fst snd]; fold L.
  - rewrite Ht0. apply div_mul_cancel. assumption.
  - rewrite Ht1. apply div_mul_cancel. assumption.
Qed.

Lemma requests_spans (gaps : list (Q * Q)) :
  forall c, 0 <= c -> c <= L -> walkable L c gaps ->
    Forall2 (segment_of path)
      (flat_map (attempt path)
         (loop_requests L c gaps
          ++ (if Qlt_le_dec (cursor_after c gaps) L
              then [(clamp01 (cursor_after c gaps / L), 1)] else [])))
      (arc_spans L c gaps).
Proof.
  induction gaps as [|[a b] rest IH]; intros c Hc0 HcL Hw;
    cbn [loop_requests cursor_after arc_spans].
  - cbn [app]. destruct (Qlt_le_dec c L) as [Hlt|]; [|constructor].
    destruct (param_unit L c L_pos Hc0 HcL) as [H0 H1].
    destruct (attempt_succeeds c L (clamp01 (c / L)) 1) as (seg & Ha & Hs);
      try assumption; try lra.
    + now apply clamp01_id.
    + now apply param_end.
    + cbn [flat_map]. rewrite Ha. cbn [app]. constructor; [exact Hs|constructor].
  - destruct Hw as (Hab & HbL & Hcb & _ & Hw).
    rewrite <- app_assoc, flat_map_app. apply Forall2_app.
    + destruct (Qlt_le_dec c a) as [Hca|]; [|constructor].
      destruct (param_unit L c L_pos Hc0 HcL) as [H0 H1].
      destruct (param_unit L a L_pos ltac:(lra) ltac:(lra)) as [H0' H1'].
      destruct (attempt_succeeds c a (clamp01 (c / L)) (clamp01 (a / L)))
        as (seg & Ha & Hs); try assumption; try lra.
      * now apply clamp01_id.
      * now apply clamp01_id.
      * cbn [flat_map]. rewrite Ha. cbn [app]. constructor; [exact Hs|constructor].
    + apply IH; trivial. lra.
Qed.

(** The returned segments are, in order, the parts of the curve over
    the arc-length ranges between the gaps. *)
Lemma segmentation_spans (gaps : list (Q * Q)) :
  walkable L 0 gaps -> Forall (fun r => 0 < fst r) gaps ->
  Forall2 (segment_of path) (segmentation path gaps) (arc_spans L 0 gaps).
Proof.
  intros Hw Hp. unfold segmentation. destruct gaps as [|[a b] rest].
  - cbn [arc_spans]. destruct (Qlt_le_dec 0 L); [|lra].
    constructor; [|constructor]. left. cbn [fst snd]. repeat split; reflexivity.
  - pose proof (requests_spans ((a, b) :: rest) 0 ltac:(lra) ltac:(lra) Hw) as HF.
    fold L. unfold crop_requests.
    apply Forall_inv in Hp. cbn [fst] in Hp.
    destruct (flat_map _ _) as [|seg segs]; [|exact HF].
    cbn [arc_spans] in HF. destruct (Qlt_le_dec 0 a); [|lra]. inversion HF.
Qed.

Lemma segment_of_length (seg : Curve) (r : Q * Q) :
  crops_preserve_length path -> segment_of path seg r ->
  SvgPath.length seg == snd r - fst r.
Proof.
  intros Hp [(-> & H0 & H1)|(t0 & t1 & Hc & _ & H0 & H1)].
  - rewrite H0, H1. ring.
  - rewrite (Hp t0 t1 seg Hc), <- H0, <- H1. ring.
Qed.

End Spans.

(** ** The concrete stroke satisfies the crop assumptions *)

Lemma stroke_crops_succeed (l : Q) : crops_succeed (stroke l).
Proof.
  intros t0 t1 _ _ _. eexists. split; [reflexivity|]. cbn. lia.
Qed.

Lemma stroke_crops_preserve_length (l : Q) : crops_preserve_length (stroke l).
Proof.
  intros t0 t1 seg Hc. cbn in Hc. injection Hc as <-. cbn. ring.
Qed.

(** ** C3: scenario A *)

(** C3: for a curve of total arc length 100 (with at least one
    primitive) whose crops succeed and preserve arc length
    proportionally, gap_spacing 40 and gap_length 3 record exactly the
    two gaps [40, 43) and [80, 83), and the function returns exactly
    three segments, of arc lengths 40, 37 and 17. *)
Theorem scenario_A
  {Curve : Type} `{SvgPath.Ops Curve}
  (path : Curve) (fuel : nat) :
  (0 < SvgPath.len path)%nat ->
  SvgPath.length path == 100 ->
  crops_succeed path -> crops_preserve_length path ->
  (2 <= fuel)%nat ->
  exists (g1 g2 : Q * Q) (s1 s2 s3 : Curve),
    gap_positions fuel (SvgPath.length path) 3 40 = Ret [g1; g2]
    /\ range_eq g1 (40, 43) /\ range_eq g2 (80, 83)
    /\ insert_gaps_in_path fuel path 3 40 = Ret [s1; s2; s3]
    /\ SvgPath.length s1 == 40
    /\ SvgPath.length s2 == 37
    /\ SvgPath.length s3 == 17.
Proof.
  intros Hlen HL Hcrop Hpres Hfuel. set (L := SvgPath.length path) in *.
  assert (Hrun : forall k, (k < 2)%nat -> 40 + Qn k * 40 < L).
  { intros [|[|k]] Hk; [rewrite Qn_0; lra|rewrite Qn_S, Qn_0; lra|lia]. }
  assert (Hgp : gap_positions fuel L 3 40 = Ret (gaps_from L 3 40 40 2)).
  { unfold gap_positions. destruct (Qlt_le_dec L 40); [lra|].
    rewrite (gap_loop_run L 3 40 2); trivial; [reflexivity|].
    rewrite !Qn_S, Qn_0. lra. }
  assert (Hw : walkable L 0 (gaps_from L 3 40 40 2)).
  { apply gaps_from_walkable; trivial; try reflexivity.
    destruct (Q.min_spec (40 + 3) L) as [[Hm E]|[Hm E]]; lra. }
  assert (Hp : Forall (fun r => 0 < fst r) (gaps_from L 3 40 40 2)).
  { eapply Forall_impl; [|apply (gaps_from_starts L 3 40 2 40 ltac:(reflexivity))].
    cbn. intros r Hr. lra. }
  assert (HLpos : 0 < L) by lra.
  pose proof (segmentation_spans path HLpos Hcrop _ Hw Hp) as HF.
  pose proof (insert_gaps_in_path_eq fuel path 3 40 _ Hgp) as Hout.
  destruct (SvgPath.len path =? 0)%nat eqn:El; [apply Nat.eqb_eq in El; lia|].
  destruct (Qeq_bool (SvgPath.length path) 0) eqn:E0;
    [apply Qeq_bool_iff in E0; fold L in E0; lra|].
  remember (segmentation path (gaps_from L 3 40 40 2)) as out eqn:Eout.
  clear Eout. fold L in HF. cbn [gaps_from arc_spans app] in HF.
  destruct (Q.min_spec (40 + 3) L) as [[Hm1 E1]|[Hm1 E1]]; [|lra].
  destruct (Q.min_spec (40 + 40 + 3) L) as [[Hm2 E2]|[Hm2 E2]]; [|lra].
  destruct (Qlt_le_dec 0 40); [|lra].
  destruct (Qlt_le_dec (Qmin (40 + 3) L) (40 + 40)); [|lra].
  destruct (Qlt_le_dec (Qmin (40 + 40 + 3) L) L); [|lra].
  cbn [app] in HF.
  inversion HF as [|s1 r1 l1 l1' Hs1 HF1 Eq1 Eq1']; subst.
  inversion HF1 as [|s2 r2 l2 l2' Hs2 HF2 Eq2 Eq2']; subst.
  inversion HF2 as [|s3 r3 l3 l3' Hs3 HF3 Eq3 Eq3']; subst.
  inversion HF3; subst.
  apply (segment_of_length path) in Hs1, Hs2, Hs3; trivial.
  cbn [fst snd] in Hs1, Hs2, Hs3. fold L in Hs3.
  eexists _, _, s1, s2, s3. split; [exact Hgp|].
  split; [split; cbn [fst snd]; lra|].
  split; [split; cbn [fst snd]; lra|].
  split; [exact Hout|].
  repeat split; lra.
Qed.

(** [scenario_A] at a stroke of length 100. *)
Lemma scenario_A_witness :
  exists (g1 g2 : Q * Q) (s1 s2 s3 : Stroke),
    gap_positions 2 (SvgPath.length (stroke 100)) 3 40 = Ret [g1; g2]
    /\ range_eq g1 (40, 43) /\ range_eq g2 (80, 83)
    /\ insert_gaps_in_path 2 (stroke 100) 3 40 = Ret [s1; s2; s3]
    /\ SvgPath.length s1 == 40
    /\ SvgPath.length s2 == 37
    /\ SvgPath.length s3 == 17.
Proof.
  apply (scenario_A (stroke 100) 2).
  - cbn. lia.
  - reflexivity.
  - apply stroke_crops_succeed.
  - apply stroke_crops_preserve_length.
  - lia.
Defined.

(** ** C4: one centered gap on a short path *)

(** C4: for every curve (with at least one primitive) with
    0 < total_length < gap_spacing and 0 < gap_length < total_length,
    whose crops succeed and preserve arc length proportionally, exactly
    one gap is recorded, centered at total_length / 2 and of width
    gap_length; the function returns two segments (so at most 2) whose
    combined arc length is total_length - gap_length. *)
Theorem centered_gap
  {Curve : Type} `{SvgPath.Ops Curve}
  (path : Curve) (g s : Q) (fuel : nat) :
  (0 < SvgPath.len path)%nat ->
  0 < SvgPath.length path -> SvgPath.length path < s ->
  0 < g -> g < SvgPath.length path ->
  crops_succeed path -> crops_preserve_length path ->
  exists (gap : Q * Q) (out : list Curve),
    gap_positions fuel (SvgPath.length path) g s = Ret [gap]
    /\ (fst gap + snd gap) / 2 == SvgPath.length path / 2
    /\ snd gap - fst gap == g
    /\ insert_gaps_in_path fuel path g s = Ret out
    /\ (List.length out <= 2)%nat
    /\ fold_right Qplus 0 (map SvgPath.length out) == SvgPath.length path - g.
Proof.
  intros Hlen HL HLs Hg HgL Hcrop Hpres. set (L := SvgPath.length path) in *.
  pose proof (gap_positions_short fuel L g s HLs) as Hgp.
  destruct (Q.max_spec 0 (L / 2 - g / 2)) as [[Hm E]|[Hm E]]; [|halves; lra].
  destruct (Q.min_spec L (L / 2 + g / 2)) as [[Hm' E']|[Hm' E']]; [halves; lra|].
  destruct (Qlt_le_dec 0 (Qmax 0 (L / 2 - g / 2))) as [Hpos|]; [|halves; lra].
  set (a := Qmax 0 (L / 2 - g / 2)) in *.
  set (b := Qmin L (L / 2 + g / 2)) in *.
  assert (Hw : walkable L 0 [(a, b)]).
  { cbn [walkable]. split; [halves; lra|]. split; [halves; lra|].
    split; [halves; lra|]. split; [constructor|exact I]. }
  assert (Hp : Forall (fun r => 0 < fst r) [(a, b)])
    by (constructor; [exact Hpos|constructor]).
  pose proof (segmentation_spans path HL Hcrop _ Hw Hp) as HF.
  pose proof (insert_gaps_in_path_eq fuel path g s _ Hgp) as Hout.
  destruct (SvgPath.len path =? 0)%nat eqn:El; [apply Nat.eqb_eq in El; lia|].
  destruct (Qeq_bool (SvgPath.length path) 0) eqn:E0;
    [apply Qeq_bool_iff in E0; fold L in E0; lra|].
  remember (segmentation path [(a, b)]) as out eqn:Eout. clear Eout.
  fold L in HF. cbn [arc_spans app] in HF.
  destruct (Qlt_le_dec 0 a); [|lra].
  destruct (Qlt_le_dec b L); [|halves; lra].
  cbn [app] in HF.
  inversion HF as [|s1 r1 l1 l1' Hs1 HF1 Eq1 Eq1']; subst.
  inversion HF1 as [|s2 r2 l2 l2' Hs2 HF2 Eq2 Eq2']; subst.
  inversion HF2; subst.
  apply (segment_of_length path) in Hs1, Hs2; trivial.
  cbn [fst snd] in Hs1, Hs2. fold L in Hs2.
  exists (a, b), [s1; s2]. split; [exact Hgp|]. cbn [fst snd].
  split; [halves; lra|]. split; [halves; lra|].
  split; [exact Hout|]. split; [cbn; lia|].
  cbn [map fold_right]. halves. lra.
Qed.

(** [centered_gap] at a stroke of length 20 (scenario B). *)
Lemma centered_gap_witness :
  exists (gap : Q * Q) (out : list Stroke),
    gap_positions 0 (SvgPath.length (stroke 20)) 3 40 = Ret [gap]
    /\ (fst gap + snd gap) / 2 == SvgPath.length (stroke 20) / 2
    /\ snd gap - fst gap == 3
    /\ insert_gaps_in_path 0 (stroke 20) 3 40 = Ret out
    /\ (List.length out <= 2)%nat
    /\ fold_right Qplus 0 (map SvgPath.length out) == SvgPath.length (stroke 20) - 3.
Proof.
  apply (centered_gap (stroke 20) 3 40 0).
  - cbn. lia.
  - reflexivity.
  - reflexivity.
  - reflexivity.
  - reflexivity.
  - apply stroke_crops_succeed.
  - apply stroke_crops_preserve_length.
Defined.


(** * Further properties of [insert_gaps_in_path] *)

(** The positions the periodic loop visits: [periodic_count] of them lie
    on the path, the next one does not. *)
Lemma periodic_count_spec (L s : Q) :
  0 < s -> s <= L ->
  (forall k, (k < periodic_count L s)%nat -> s + Qn k * s < L)
  /\ L <= s + Qn (periodic_count L s) * s.
Proof.
  intros Hs HL.
  pose proof (Qn_periodic_count L s Hs HL) as Hn.
  pose proof (Qle_ceiling (L / s)) as Hc1.
  pose proof (Qceiling_lt (L / s)) as Hc2.
  pose proof (div_mul_cancel L s Hs) as Hx.
  unfold Z.sub in Hc2. rewrite inject_Z_plus in Hc2.
  change (inject_Z (Qceiling (L / s)) - 1 < L / s) in Hc2.
  set (x := L / s) in *. clearbody x. split.
  - intros k Hk.
    assert (Hk' : Qn k + 1 <= Qn (periodic_count L s)).
    { rewrite <- Qn_S. apply Qn_le. lia. }
    assert (Hlt : Qn k + 1 < x) by lra.
    apply (Qmult_lt_compat_r _ _ s Hs) in Hlt. lra.
  - assert (Hle : x <= Qn (periodic_count L s) + 1) by lra.
    apply (Qmult_le_compat_r _ _ s) in Hle; lra.
Qed.

Lemma sum_widths_app (l l' : list (Q * Q)) :
  sum_widths (l ++ l') == sum_widths l + sum_widths l'.
Proof.
  unfold sum_widths. induction l as [|r l IH]; cbn [app map fold_right]; [lra|].
  rewrite IH. lra.
Qed.

(** Between gaps that do not overlap, the ranges and the gaps add up to
    the rest of the path. *)
Lemma arc_spans_measure (L : Q) (gaps : list (Q * Q)) :
  forall c, c <= L -> walkable L c gaps ->
    Forall (fun r => c <= fst r) gaps -> StronglySorted before gaps ->
    sum_widths (arc_spans L c gaps) + sum_widths gaps == L - c.
Proof.
  induction gaps as [|[a b] rest IH]; intros c Hc Hw Hca Hs; cbn [arc_spans].
  - destruct (Qlt_le_dec c L); unfold sum_widths; cbn; lra.
  - destruct Hw as (Hab & HbL & Hcb & _ & Hw).
    apply StronglySorted_inv in Hs. destruct Hs as [Hs Hb].
    apply Forall_inv in Hca. cbn [fst] in Hca.
    specialize (IH b HbL Hw Hb Hs).
    rewrite sum_widths_app.
    change (sum_widths ((a, b) :: rest)) with (b - a + sum_widths rest).
    destruct (Qlt_le_dec c a); unfold sum_widths at 1; cbn [map fold_right fst snd]; lra.
Qed.

(** In the periodic branch no range between gaps is longer than the
    spacing. *)
Lemma arc_spans_periodic_short (L g s : Q) (n : nat) :
  forall pos c,
    0 <= g -> 0 < s ->
    (forall k, (k < n)%nat -> pos + Qn k * s < L) ->
    L <= pos + Qn n * s ->
    pos - s <= c ->
    Forall (fun r => snd r - fst r <= s) (arc_spans L c (gaps_from L g s pos n)).
Proof.
  induction n as [|n IH]; intros pos c Hg Hs Hlt Hge Hc; cbn [gaps_from arc_spans].
  - rewrite Qn_0 in Hge.
    destruct (Qlt_le_dec c L); constructor; [cbn; lra|constructor].
  - assert (H0 : pos < L).
    { specialize (Hlt O ltac:(lia)). rewrite Qn_0 in Hlt. lra. }
    apply Forall_app. split.
    + destruct (Qlt_le_dec c pos); constructor; [cbn; lra|constructor].
    + apply IH; trivial.
      * intros k Hk. specialize (Hlt (S k) ltac:(lia)). rewrite Qn_S in Hlt. lra.
      * rewrite Qn_S in Hge. lra.
      * destruct (Q.min_spec (pos + g) L) as [[Hm E]|[Hm E]]; lra.
Qed.

(** With a gap at least as long as the spacing nothing is left between
    or after the gaps once the cursor has caught up with the loop. *)
Lemma arc_spans_periodic_swallowed (L g s : Q) (n : nat) :
  forall pos c,
    0 < s -> s <= g ->
    (forall k, (k < n)%nat -> pos + Qn k * s < L) ->
    L <= pos + Qn n * s ->
    Qmin pos L <= c ->
    arc_spans L c (gaps_from L g s pos n) = [].
Proof.
  induction n as [|n IH]; intros pos c Hs Hg Hlt Hge Hc; cbn [gaps_from arc_spans].
  - rewrite Qn_0 in Hge.
    destruct (Q.min_spec pos L) as [[Hm E]|[Hm E]];
      destruct (Qlt_le_dec c L); trivial; lra.
  - assert (H0 : pos < L).
    { specialize (Hlt O ltac:(lia)). rewrite Qn_0 in Hlt. lra. }
    destruct (Q.min_spec pos L) as [[Hm E]|[Hm E]]; [|lra].
    destruct (Qlt_le_dec c pos); [lra|]. cbn [app].
    apply IH; trivial.
    + intros k Hk. specialize (Hlt (S k) ltac:(lia)). rewrite Qn_S in Hlt. lra.
    + rewrite Qn_S in Hge. lra.
    + destruct (Q.min_spec (pos + g) L) as [[Hm1 E1]|[Hm1 E1]];
        destruct (Q.min_spec (pos + s) L) as [[Hm2 E2]|[Hm2 E2]]; lra.
Qed.

Section Lengths.

Context {Curve : Type} `{SvgPath.Ops Curve}.

Lemma segments_lengths (path : Curve) (out : list Curve) (spans : list (Q * Q)) :
  0 < SvgPath.length path -> crops_succeed path -> crops_preserve_length path ->
  Forall2 (segment_of path) out spans ->
  Forall2 (fun seg r => SvgPath.length seg == snd r - fst r) out spans.
Proof.
  intros HL Hc Hp HF. induction HF as [|seg r out spans Hs _ IH]; constructor; trivial.
  now apply (segment_of_length path).
Qed.

Lemma combined_length_widths (out : list Curve) (spans : list (Q * Q)) :
  Forall2 (fun seg r => SvgPath.length seg == snd r - fst r) out spans ->
  combined_length out == sum_widths spans.
Proof.
  unfold combined_length, sum_widths.
  induction 1 as [|seg r out spans Hs _ IH]; cbn [map fold_right]; [lra|].
  rewrite Hs, IH. lra.
Qed.

(** The value returned for a curve with primitives. *)
Lemma insert_gaps_in_path_nonempty (fuel : nat) (path : Curve) (g s : Q)
      (gaps : list (Q * Q)) :
  (0 < SvgPath.len path)%nat ->
  gap_positions fuel (SvgPath.length path) g s = Ret gaps ->
  insert_gaps_in_path fuel path g s
  = Ret (if Qeq_bool (SvgPath.length path) 0 then [path] else segmentation path gaps).
Proof.
  intros Hlen Hg. rewrite (insert_gaps_in_path_eq fuel path g s gaps Hg).
  destruct (SvgPath.len path =? 0)%nat eqn:E; [apply Nat.eqb_eq in E; lia|reflexivity].
Qed.

End Lengths.

(** The recorded gaps do not overlap when the gap is not longer than
    the spacing. *)
Lemma gaps_ascending_apart (fuel : nat) (L g s : Q) :
  0 < s -> (fuel_bound L s <= fuel)%nat ->
  exists gaps : list (Q * Q),
    gap_positions fuel L g s = Ret gaps
    /\ (g <= s -> StronglySorted before gaps).
Proof.
  intros Hs Hfuel.
  destruct (gap_positions_shape fuel L g s Hs Hfuel)
    as (gaps & Hg & [[_ [->| ->]]|[_ ->]]); eexists; (split; [exact Hg|]).
  - intros; constructor.
  - intros; repeat constructor.
  - intros Hle. now apply gaps_from_apart.
Qed.

(** X1: no uncut run is longer than the spacing.  For positive
    gap_length and gap_spacing and a curve of non-negative length whose
    crops succeed and preserve arc length, every returned segment has
    arc length at most gap_spacing (a path returned whole for lack of a
    gap is itself no longer than gap_spacing). *)
Theorem no_run_exceeds_spacing
  {Curve : Type} `{SvgPath.Ops Curve}
  (path : Curve) (g s : Q) (fuel : nat) :
  0 < g -> 0 < s -> 0 <= SvgPath.length path ->
  crops_succeed path -> crops_preserve_length path ->
  (fuel_bound (SvgPath.length path) s <= fuel)%nat ->
  exists out : list Curve,
    insert_gaps_in_path fuel path g s = Ret out
    /\ Forall (fun seg => SvgPath.length seg <= s) out.
Proof.
  intros Hg Hs HL Hcrop Hpres Hfuel. set (L := SvgPath.length path) in *.
  destruct (gap_positions_walkable fuel L g s Hg Hs HL Hfuel) as (gaps & Hgp & Hw & Hp).
  eexists. split; [apply insert_gaps_in_path_eq; exact Hgp|].
  destruct (SvgPath.len path =? 0)%nat; [constructor|].
  destruct (Qeq_bool _ 0) eqn:E0.
  { apply Qeq_bool_iff in E0.
    constructor; [change (SvgPath.length path <= s); lra|constructor]. }
  assert (HLpos : 0 < L).
  { destruct (Qlt_le_dec 0 L) as [|Hle]; [assumption|].
    assert (E : L == 0) by lra. apply Qeq_bool_iff in E. fold L in E0. congruence. }
  pose proof (segmentation_spans path HLpos Hcrop gaps Hw Hp) as HF.
  apply (segments_lengths path) in HF; trivial. fold L in HF.
  assert (Hshort : Forall (fun r => snd r - fst r <= s) (arc_spans L 0 gaps)).
  { destruct (Qlt_le_dec L s) as [HLs|HLs].
    - eapply Forall_impl; [|apply (arc_spans_within L gaps 0 HL Hw)].
      cbn. intros r Hr. lra.
    - pose proof (periodic_count_le_bound L s).
      rewrite gap_positions_periodic in Hgp by (assumption || lia).
      injection Hgp as <-.
      destruct (periodic_count_spec L s Hs HLs) as [Hlt Hge].
      apply arc_spans_periodic_short; trivial; lra. }
  clear -HF Hshort. revert Hshort.
  induction HF as [|seg r out spans Hs' _ IH]; intros Hshort; constructor.
  - apply Forall_inv in Hshort. lra.
  - apply IH. now apply Forall_inv_tail in Hshort.
Qed.

(** [no_run_exceeds_spacing] at a stroke of length 100. *)
Lemma no_run_exceeds_spacing_witness :
  exists out : list Stroke,
    insert_gaps_in_path 5 (stroke 100) 3 40 = Ret out
    /\ Forall (fun seg => SvgPath.length seg <= 40) out.
Proof.
  apply (no_run_exceeds_spacing (stroke 100) 3 40 5).
  - reflexivity.
  - reflexivity.
  - vm_compute. discriminate.
  - apply stroke_crops_succeed.
  - apply stroke_crops_preserve_length.
  - vm_compute. lia.
Defined.

(** X2: length conservation.  For a curve with primitives, positive
    gap_length not above gap_spacing, and crops that succeed and preserve
    arc length, the arc lengths of the returned segments and the widths
    of the recorded gaps add up to the arc length of the path. *)
Theorem length_conservation
  {Curve : Type} `{SvgPath.Ops Curve}
  (path : Curve) (g s : Q) (fuel : nat) :
  (0 < SvgPath.len path)%nat ->
  0 < g -> g <= s -> 0 <= SvgPath.length path ->
  crops_succeed path -> crops_preserve_length path ->
  (fuel_bound (SvgPath.length path) s <= fuel)%nat ->
  exists (gaps : list (Q * Q)) (out : list Curve),
    gap_positions fuel (SvgPath.length path) g s = Ret gaps
    /\ insert_gaps_in_path fuel path g s = Ret out
    /\ combined_length out + sum_widths gaps == SvgPath.length path.
Proof.
  intros Hlen Hg Hgs HL Hcrop Hpres Hfuel. set (L := SvgPath.length path) in *.
  assert (Hs : 0 < s) by lra.
  destruct (gap_positions_walkable fuel L g s Hg Hs HL Hfuel) as (gaps & Hgp & Hw & Hp).
  destruct (gaps_ascending_apart fuel L g s Hs Hfuel) as (gaps' & Hgp' & Hsorted).
  assert (gaps' = gaps) by congruence. subst gaps'. specialize (Hsorted Hgs).
  exists gaps. eexists. split; [exact Hgp|].
  split; [exact (insert_gaps_in_path_nonempty fuel path g s gaps Hlen Hgp)|].
  pose proof (walkable_within L gaps 0 Hw Hp) as Hin.
  destruct (Qeq_bool _ 0) eqn:E0.
  { apply Qeq_bool_iff in E0. fold L in E0.
    destruct gaps as [|r rest].
    - unfold combined_length, sum_widths. cbn. fold L. lra.
    - apply Forall_inv in Hin. lra. }
  assert (HLpos : 0 < L).
  { destruct (Qlt_le_dec 0 L) as [|Hle]; [assumption|].
    assert (E : L == 0) by lra. apply Qeq_bool_iff in E. fold L in E0. congruence. }
  pose proof (segmentation_spans path HLpos Hcrop gaps Hw Hp) as HF.
  apply (segments_lengths path) in HF; trivial.
  rewrite (combined_length_widths _ _ HF). fold L.
  rewrite (arc_spans_measure L gaps 0 HL Hw); [lra| |assumption].
  eapply Forall_impl; [|exact Hp]. cbn. intros r Hr. lra.
Qed.

(** [length_conservation] at a stroke of length 100. *)
Lemma length_conservation_witness :
  exists (gaps : list (Q * Q)) (out : list Stroke),
    gap_positions 5 (SvgPath.length (stroke 100)) 3 40 = Ret gaps
    /\ insert_gaps_in_path 5 (stroke 100) 3 40 = Ret out
    /\ combined_length out + sum_widths gaps == SvgPath.length (stroke 100).
Proof.
  apply (length_conservation (stroke 100) 3 40 5).
  - cbn. lia.
  - reflexivity.
  - vm_compute. discriminate.
  - vm_compute. discriminate.
  - apply stroke_crops_succeed.
  - apply stroke_crops_preserve_length.
  - vm_compute. lia.
Defined.

(** X3: a gap as long as the spacing or longer eats the rest of the
    path.  For a curve with primitives longer than gap_spacing, with
    gap_length >= gap_spacing > 0 and crops that succeed and preserve arc
    length, the function returns exactly one segment, of arc length
    gap_spacing: the part before the first gap. *)
Theorem long_gap_keeps_first_run
  {Curve : Type} `{SvgPath.Ops Curve}
  (path : Curve) (g s : Q) (fuel : nat) :
  (0 < SvgPath.len path)%nat ->
  0 < s -> s <= g -> s < SvgPath.length path ->
  crops_succeed path -> crops_preserve_length path ->
  (fuel_bound (SvgPath.length path) s <= fuel)%nat ->
  exists seg : Curve,
    insert_gaps_in_path fuel path g s = Ret [seg]
    /\ SvgPath.length seg == s.
Proof.
  intros Hlen Hs Hg HL Hcrop Hpres Hfuel. set (L := SvgPath.length path) in *.
  assert (Hg0 : 0 < g) by lra. assert (HL0 : 0 <= L) by lra.
  assert (HLs : s <= L) by lra. assert (HLpos : 0 < L) by lra.
  destruct (gap_positions_walkable fuel L g s Hg0 Hs HL0 Hfuel) as (gaps & Hgp & Hw & Hp).
  pose proof (insert_gaps_in_path_nonempty fuel path g s gaps Hlen Hgp) as Hout.
  destruct (Qeq_bool (SvgPath.length path) 0) eqn:E0;
    [apply Qeq_bool_iff in E0; fold L in E0; lra|].
  pose proof (segmentation_spans path HLpos Hcrop gaps Hw Hp) as HF.
  apply (segments_lengths path) in HF; trivial. fold L in HF.
  pose proof (periodic_count_le_bound L s).
  rewrite gap_positions_periodic in Hgp by (assumption || lia).
  injection Hgp as Hgaps.
  destruct (periodic_count_spec L s Hs HLs) as [Hlt Hge].
  destruct (periodic_count L s) as [|n]; [rewrite Qn_0 in Hge; lra|].
  remember (segmentation path gaps) as out eqn:Eout. clear Eout.
  rewrite <- Hgaps in HF. cbn [gaps_from arc_spans] in HF.
  destruct (Qlt_le_dec 0 s); [|lra].
  rewrite (arc_spans_periodic_swallowed L g s n) in HF; trivial.
  - cbn [app] in HF.
    inversion HF as [|seg r l l' Hseg HF1 E1 E2]; subst.
    inversion HF1; subst. exists seg. split; [exact Hout|].
    cbn [fst snd] in Hseg. lra.
  - intros k Hk. specialize (Hlt (S k) ltac:(lia)). rewrite Qn_S in Hlt. lra.
  - rewrite Qn_S in Hge. lra.
  - destruct (Q.min_spec (s + g) L) as [[Hm1 E1]|[Hm1 E1]];
      destruct (Q.min_spec (s + s) L) as [[Hm2 E2]|[Hm2 E2]]; lra.
Qed.

(** [long_gap_keeps_first_run] at a stroke of length 100 with
    gap_length 50 and gap_spacing 40. *)
Lemma long_gap_keeps_first_run_witness :
  exists seg : Stroke,
    insert_gaps_in_path 5 (stroke 100) 50 40 = Ret [seg]
    /\ SvgPath.length seg == 40.
Proof.
  apply (long_gap_keeps_first_run (stroke 100) 50 40 5).
  - cbn. lia.
  - reflexivity.
  - vm_compute. discriminate.
  - reflexivity.
  - apply stroke_crops_succeed.
  - apply stroke_crops_preserve_length.
  - vm_compute. lia.
Defined.

(** X4: a short path that the centered gap would consume is left whole.
    For a curve with primitives and 0 < total_length < gap_spacing,
    total_length <= gap_length, no gap is recorded and the function
    returns [[curve]], for every budget and whatever the crops do. *)
Theorem short_path_kept_whole
  {Curve : Type} `{SvgPath.Ops Curve}
  (path : Curve) (g s : Q) (fuel : nat) :
  (0 < SvgPath.len path)%nat ->
  0 < SvgPath.length path -> SvgPath.length path < s ->
  SvgPath.length path <= g ->
  gap_positions fuel (SvgPath.length path) g s = Ret []
  /\ insert_gaps_in_path fuel path g s = Ret [path].
Proof.
  intros Hlen HL HLs HLg. set (L := SvgPath.length path) in *.
  assert (Hgp : gap_positions fuel L g s = Ret []).
  { rewrite gap_positions_short by assumption.
    destruct (Q.max_spec 0 (L / 2 - g / 2)) as [[Hm E]|[Hm E]]; [halves; lra|].
    destruct (Q.min_spec L (L / 2 + g / 2)) as [[Hm' E']|[Hm' E']];
      destruct (Qlt_le_dec 0 _); try (halves; lra);
      destruct (Qlt_le_dec _ L); try (halves; lra); reflexivity. }
  split; [exact Hgp|].
  rewrite (insert_gaps_in_path_nonempty fuel path g s [] Hlen Hgp).
  destruct (Qeq_bool _ 0); reflexivity.
Qed.

(** [short_path_kept_whole] at a brittle stroke of length 2 with
    gap_length 3. *)
Lemma short_path_kept_whole_witness :
  gap_positions 0 (SvgPath.length (brittle_stroke 2)) 3 40 = Ret []
  /\ insert_gaps_in_path 0 (brittle_stroke 2) 3 40 = Ret [brittle_stroke 2].
Proof.
  apply (short_path_kept_whole (brittle_stroke 2) 3 40 0).
  - cbn. lia.
  - reflexivity.
  - reflexivity.
  - vm_compute. discriminate.
Defined.

(** X5: every returned curve has primitives.  For a curve with at least
    one primitive and a positive gap_spacing, each curve of the returned
    sequence has at least one primitive, whatever the crops do. *)
Theorem segments_have_primitives
  {Curve : Type} `{SvgPath.Ops Curve}
  (path : Curve) (g s : Q) (fuel : nat) :
  (0 < SvgPath.len path)%nat ->
  0 < s -> (fuel_bound (SvgPath.length path) s <= fuel)%nat ->
  exists out : list Curve,
    insert_gaps_in_path fuel path g s = Ret out
    /\ out <> []
    /\ Forall (fun seg => (0 < SvgPath.len seg)%nat) out.
Proof.
  intros Hlen Hs Hfuel.
  destruct (gap_positions_shape fuel _ g s Hs Hfuel) as (gaps & Hgp & _).
  eexists. split; [exact (insert_gaps_in_path_nonempty fuel path g s gaps Hlen Hgp)|].
  destruct (Qeq_bool _ 0).
  - split; [discriminate|]. constructor; [assumption|constructor].
  - split; [apply segmentation_nonempty|].
    eapply Forall_impl; [|apply segmentation_emits].
    intros seg [->|(t0 & t1 & _ & _ & _ & _ & Hl)]; assumption.
Qed.

(** [segments_have_primitives] at a stroke of length 100. *)
Lemma segments_have_primitives_witness :
  exists out : list Stroke,
    insert_gaps_in_path 5 (stroke 100) 3 40 = Ret out
    /\ out <> []
    /\ Forall (fun seg => (0 < SvgPath.len seg)%nat) out.
Proof.
  apply (segments_have_primitives (stroke 100) 3 40 5).
  - cbn. lia.
  - reflexivity.
  - vm_compute. lia.
Defined.

(** * The loop of [main] over the parsed paths *)

Section MainLoop.

Context {Curve : Type} `{SvgPath.Ops Curve}.

(** With a positive spacing and enough budget a call returns; a curve
    without primitives gives nothing, a curve with primitives gives a
    non-empty sequence of curves with primitives. *)
Lemma insert_gaps_in_path_returns (fuel : nat) (path : Curve) (g s : Q) :
  0 < s -> (fuel_bound (SvgPath.length path) s <= fuel)%nat ->
  exists out : list Curve,
    insert_gaps_in_path fuel path g s = Ret out
    /\ (SvgPath.len path = 0%nat -> out = [])
    /\ ((0 < SvgPath.len path)%nat -> out <> [])
    /\ Forall (fun seg => (0 < SvgPath.len seg)%nat) out.
Proof.
  intros Hs Hfuel.
  destruct (gap_positions_shape fuel _ g s Hs Hfuel) as (gaps & Hgp & _).
  eexists. split; [exact (insert_gaps_in_path_eq fuel path g s gaps Hgp)|].
  destruct (SvgPath.len path =? 0)%nat eqn:E.
  - apply Nat.eqb_eq in E. split; [reflexivity|]. split; [lia|constructor].
  - apply Nat.eqb_neq in E. split; [lia|].
    destruct (Qeq_bool _ 0).
    + split; [discriminate|]. constructor; [lia|constructor].
    + split; [intros _; apply segmentation_nonempty|].
      eapply Forall_impl; [|apply segmentation_emits].
      intros seg [->|(t0 & t1 & _ & _ & _ & _ & Hl)]; [lia|assumption].
Qed.

Lemma main_insert_gaps_spec (fuel : nat) (g s : Q) (paths : list Curve) :
  forall acc : list Curve,
    0 < s ->
    Forall (fun p => (fuel_bound (SvgPath.length p) s <= fuel)%nat) paths ->
    exists outs : list (list Curve),
      Forall2 (fun p o => insert_gaps_in_path fuel p g s = Ret o
                          /\ ((0 < SvgPath.len p)%nat -> o <> [])
                          /\ Forall (fun seg => (0 < SvgPath.len seg)%nat) o)
              paths outs
      /\ main_insert_gaps fuel paths g s acc = Ret (acc ++ concat outs).
Proof.
  induction paths as [|p paths IH]; intros acc Hs Hfuel.
  - exists []. split; [constructor|]. cbn. now rewrite app_nil_r.
  - apply Forall_cons_iff in Hfuel. destruct Hfuel as [Hp Hfuel].
    destruct (insert_gaps_in_path_returns fuel p g s Hs Hp) as (o & Ho & _ & Hne & Hlen).
    destruct (IH (acc ++ o) Hs Hfuel) as (outs & HF & Hrun).
    exists (o :: outs). split; [constructor; [now repeat split|exact HF]|].
    cbn [main_insert_gaps concat]. rewrite Ho. cbn [bind].
    rewrite Hrun. now rewrite app_assoc.
Qed.

Lemma concat_length_nonempty (paths : list Curve) (outs : list (list Curve)) (P : Curve -> list Curve -> Prop) :
  Forall2 (fun p o => P p o /\ ((0 < SvgPath.len p)%nat -> o <> [])) paths outs ->
  (List.length (filter (fun p => (0 <? SvgPath.len p)%nat) paths)
   <= List.length (concat outs))%nat.
Proof.
  induction 1 as [|p o paths outs [_ Hne] _ IH]; cbn [filter concat]; [cbn; lia|].
  rewrite length_app. destruct (0 <? SvgPath.len p)%nat eqn:E; [|lia].
  apply Nat.ltb_lt in E. specialize (Hne E).
  destruct o; [congruence|]. cbn [List.length] in *. lia.
Qed.

End MainLoop.



(** * The writer and the reader *)

Section Documents.

Context {Curve : Type} `{SvgPath.Ops Curve} `{SvgText.Ops Curve} `{FloatText}.

(** The loop over the paths adds one element for each path with
    primitives, in order, and skips the others. *)
Lemma add_paths_eq (stroke_width : Q) (paths : list Curve) :
  forall group : list element,
    add_paths paths stroke_width group
    = group ++ map (fun p => path_element p stroke_width)
                   (filter (fun p => (0 <? SvgPath.len p)%nat) paths).
Proof.
  induction paths as [|p paths IH]; intros group; cbn [add_paths filter map].
  - now rewrite app_nil_r.
  - destruct (SvgPath.len p) as [|n] eqn:E; cbn [Nat.eqb Nat.ltb Nat.leb].
    + apply IH.
    + rewrite IH, <- app_assoc. reflexivity.
Qed.

Lemma findall_path_elements (stroke_width : Q) (paths : list Curve) :
  filter (fun e => String.eqb (tag_of e) "path")
         (flat_map iter (map (fun p => path_element p stroke_width) paths))
  = map (fun p => path_element p stroke_width) paths.
Proof.
  induction paths as [|p paths IH]; [reflexivity|].
  cbn [map flat_map iter path_element app filter tag_of]. cbn [flat_map app].
  change (String.eqb "path" "path") with true. cbv iota. f_equal. exact IH.
Qed.

(** What the writer returns when it returns. *)
Lemma write_svg_with_gaps_inv (paths : list Curve) (svg_attrs : list (string * string))
      (stroke_width : Q) (root : element) :
  write_svg_with_gaps paths svg_attrs stroke_width = Ret root ->
  exists vb_height : string,
    root = Element "svg"
             [("xmlns", svg_ns);
              ("viewBox", get svg_attrs "viewBox" "0 0 1000 1000");
              ("width", get svg_attrs "width" "100%");
              ("height", get svg_attrs "height" "100%")]%string
             [Element "g"
                [("transform"%string,
                  String.append "scale(1,-1) translate(0,-"
                                (String.append vb_height ")"))]
                (add_paths paths stroke_width [])].
Proof.
  unfold write_svg_with_gaps.
  destruct (List.length _ =? 4)%nat.
  - destruct (float_of_string _) as [h|]; cbn [call bind]; [|discriminate].
    intros [= <-]. exists (str_of_float h). reflexivity.
  - cbn [bind]. intros [= <-]. exists "1000"%string. reflexivity.
Qed.

Lemma collect_paths_spec (elems : list element) :
  forall paths : list Curve,
    exists new : list Curve,
      collect_paths elems paths = Ret (paths ++ new)
      /\ (List.length new <= List.length elems)%nat
      /\ (forall p, In p new <->
            exists e, In e elems
                      /\ get (attrib_of e) "d" "" <> ""%string
                      /\ SvgText.parse_path (get (attrib_of e) "d" "") = Some p).
Proof.
  induction elems as [|e elems IH]; intros paths.
  - exists []. cbn. rewrite app_nil_r. split; [reflexivity|]. split; [lia|].
    intros p. split; [intros []|intros (e & [] & _)].
  - cbn [collect_paths].
    destruct (String.eqb (get (attrib_of e) "d" "") "") eqn:Ed.
    + apply String.eqb_eq in Ed. cbn [bind].
      destruct (IH paths) as (new & Hrun & Hlen & Hin).
      exists new. split; [exact Hrun|]. split; [cbn; lia|].
      intros p. rewrite Hin. split.
      * intros (e' & He' & Hd). exists e'. split; [now right|exact Hd].
      * intros (e' & [<-|He'] & Hd & Hp); [congruence|].
        exists e'. now repeat split.
    + apply String.eqb_neq in Ed.
      destruct (SvgText.parse_path (get (attrib_of e) "d" "")) as [q|] eqn:Ep;
        cbn [call bind try_except].
      * destruct (IH (paths ++ [q])) as (new & Hrun & Hlen & Hin).
        exists (q :: new). split; [rewrite Hrun, <- app_assoc; reflexivity|].
        split; [cbn; lia|].
        intros p. cbn [In]. rewrite Hin. split.
        -- intros [<-|(e' & He' & Hd)].
           ++ exists e. split; [now left|]. now split.
           ++ exists e'. split; [now right|exact Hd].
        -- intros (e' & [<-|He'] & Hd & Hp).
           ++ left. congruence.
           ++ right. exists e'. now repeat split.
      * destruct (IH paths) as (new & Hrun & Hlen & Hin).
        exists new. split; [exact Hrun|]. split; [cbn; lia|].
        intros p. rewrite Hin. split.
        -- intros (e' & He' & Hd). exists e'. split; [now right|exact Hd].
        -- intros (e' & [<-|He'] & Hd & Hp); [congruence|].
           exists e'. now repeat split.
Qed.

End Documents.

Lemma filter_disjoint_length {A : Type} (f g : A -> bool) (l : list A) :
  (forall x, f x = true -> g x = false) ->
  (List.length (filter f l) + List.length (filter g l)
   = List.length (filter (fun x => f x || g x) l))%nat.
Proof.
  intros Hd. induction l as [|x l IH]; [reflexivity|]. cbn [filter].
  destruct (f x) eqn:Ef.
  - rewrite (Hd x Ef). cbn. lia.
  - destruct (g x); cbn; lia.
Qed.

Lemma path_elements_of_In (root e : element) :
  In e (path_elements_of root)
  <-> In e (findall root svg_path_tag) \/ In e (findall root "path").
Proof.
  unfold path_elements_of, findall. rewrite !filter_In, orb_true_iff. tauto.
Qed.

Lemma path_elements_of_length (root : element) :
  (List.length (findall root svg_path_tag) + List.length (findall root "path")
   = List.length (path_elements_of root))%nat.
Proof.
  unfold path_elements_of, findall. apply filter_disjoint_length.
  intros x Hx. apply String.eqb_eq in Hx. rewrite Hx. reflexivity.
Qed.

(** X7: the reader never raises and returns exactly the readable path
    elements.  For every root element [parse_svg_paths] returns; the
    attributes it returns are the root's viewBox, width and height, with
    the defaults "", "100%" and "100%"; a curve is returned exactly when
    it is the parse of the non-empty [d] of a path element of the
    document (namespaced or not, the root excluded), and there are no
    more curves than path elements. *)
Theorem parse_svg_paths_reads_path_elements
  {Curve : Type} `{SvgPath.Ops Curve} `{SvgText.Ops Curve}
  (root : element) :
  exists paths : list Curve,
    parse_svg_paths root
    = Ret (paths,
           [("viewBox", get (attrib_of root) "viewBox" "");
            ("width", get (attrib_of root) "width" "100%");
            ("height", get (attrib_of root) "height" "100%")]%string)
    /\ (List.length paths <= List.length (path_elements_of root))%nat
    /\ (forall p, In p paths <->
          exists e, In e (path_elements_of root)
                    /\ get (attrib_of e) "d" "" <> ""%string
                    /\ SvgText.parse_path (get (attrib_of e) "d" "") = Some p).
Proof.
  unfold parse_svg_paths.
  destruct (collect_paths_spec (findall root svg_path_tag) [])
    as (new1 & Hrun1 & Hlen1 & Hin1).
  destruct (collect_paths_spec (findall root "path") ([] ++ new1))
    as (new2 & Hrun2 & Hlen2 & Hin2).
  exists (([] ++ new1) ++ new2). rewrite Hrun1. cbn [bind]. rewrite Hrun2. cbn [bind].
  split; [reflexivity|]. split.
  - rewrite <- path_elements_of_length, !length_app. cbn [List.length]. lia.
  - intros p. cbn [app]. rewrite in_app_iff, Hin1, Hin2. split.
    + intros [(e & He & Hd)|(e & He & Hd)]; exists e;
        (split; [apply path_elements_of_In; tauto|exact Hd]).
    + intros (e & He & Hd). apply path_elements_of_In in He.
      destruct He as [He|He]; [left|right]; exists e; now split.
Qed.

(** X8: building the document raises exactly on a four-part viewBox
    whose last part is not a float.  Up to the point where the document
    is serialized, [write_svg_with_gaps] propagates an exception if and
    only if the viewBox text (or the default "0 0 1000 1000" when the
    key is absent) splits at white space into exactly four parts and
    [float] refuses the fourth; otherwise the document tree is built. *)
Theorem write_svg_with_gaps_raises_iff
  {Curve : Type} `{SvgPath.Ops Curve} `{SvgText.Ops Curve} `{FloatText}
  (paths : list Curve) (svg_attrs : list (string * string)) (stroke_width : Q) :
  (write_svg_with_gaps paths svg_attrs stroke_width = Exc
   <-> (List.length (split (get svg_attrs "viewBox" "0 0 1000 1000")) = 4%nat
        /\ float_of_string (nth 3 (split (get svg_attrs "viewBox" "0 0 1000 1000"))
                                ""%string) = None))
  /\ (write_svg_with_gaps paths svg_attrs stroke_width <> Exc ->
      exists root, write_svg_with_gaps paths svg_attrs stroke_width = Ret root).
Proof.
  unfold write_svg_with_gaps.
  destruct (List.length _ =? 4)%nat eqn:E.
  - apply Nat.eqb_eq in E.
    destruct (float_of_string _) as [h|]; cbn [call bind].
    + split; [split; [discriminate|intros [_ [=]]]|]. intros _. eexists. reflexivity.
    + split; [split; [now split|reflexivity]|]. intros Hn. now contradiction Hn.
  - apply Nat.eqb_neq in E. cbn [bind].
    split; [split; [discriminate|intros [E' _]; contradiction]|].
    intros _. eexists. reflexivity.
Qed.

(** [write_svg_with_gaps_raises_iff] at a viewBox whose height the
    sample reader of floats refuses. *)
Lemma write_svg_with_gaps_raises_iff_witness :
  write_svg_with_gaps [stroke 100] [("viewBox", "0 0 640 48o")]%string 1 = Exc.
Proof.
  apply (write_svg_with_gaps_raises_iff [stroke 100] [("viewBox", "0 0 640 48o")]%string 1).
  split; reflexivity.
Defined.

(** The path elements of the written document. *)
Lemma write_svg_with_gaps_findall
  {Curve : Type} `{SvgPath.Ops Curve} `{SvgText.Ops Curve} `{FloatText}
  (paths : list Curve) (svg_attrs : list (string * string)) (stroke_width : Q)
  (root : element) :
  write_svg_with_gaps paths svg_attrs stroke_width = Ret root ->
  findall root "path"
  = map (fun p => path_element p stroke_width)
        (filter (fun p => (0 <? SvgPath.len p)%nat) paths).
Proof.
  intros Hw. apply write_svg_with_gaps_inv in Hw. destruct Hw as (h & ->).
  unfold findall. cbn [children_of flat_map iter app tag_of filter].
  rewrite app_nil_r, add_paths_eq. cbn [app].
  change (String.eqb "g" "path") with false. cbv iota.
  apply findall_path_elements.
Qed.

(** X9: the written document holds exactly the paths with primitives.
    When [write_svg_with_gaps] returns, the root is an [svg] element
    whose path elements are, in order, one element per input path with
    at least one primitive, carrying that path's [d] text and the fixed
    stroke style; paths without primitives leave no element. *)
Theorem write_svg_with_gaps_paths
  {Curve : Type} `{SvgPath.Ops Curve} `{SvgText.Ops Curve} `{FloatText}
  (paths : list Curve) (svg_attrs : list (string * string)) (stroke_width : Q)
  (root : element) :
  write_svg_with_gaps paths svg_attrs stroke_width = Ret root ->
  tag_of root = "svg"%string
  /\ findall root "path"
     = map (fun p => path_element p stroke_width)
           (filter (fun p => (0 <? SvgPath.len p)%nat) paths)
  /\ findall root svg_path_tag = [].
Proof.
  intros Hw.
  split; [|split; [exact (write_svg_with_gaps_findall _ _ _ _ Hw)|]];
    apply write_svg_with_gaps_inv in Hw; destruct Hw as (h & ->);
    [reflexivity|].
  unfold findall. cbn [children_of flat_map iter app tag_of filter].
  rewrite app_nil_r, add_paths_eq. cbn [app].
  change (String.eqb "g" svg_path_tag) with false. cbv iota.
  induction (filter _ paths) as [|p l IH]; [reflexivity|].
  cbn [map flat_map iter path_element app filter tag_of]. cbn [flat_map app].
  change (String.eqb "path" svg_path_tag) with false. cbv iota. exact IH.
Qed.

(** [write_svg_with_gaps_paths] at a stroke and a curve without
    primitives. *)
Lemma write_svg_with_gaps_paths_witness :
  exists root : element,
    write_svg_with_gaps [stroke 100; mkStroke 0 7 0 false] [] 1 = Ret root
    /\ tag_of root = "svg"%string
    /\ findall root "path"
       = map (fun p => path_element p 1)
             (filter (fun p => (0 <? SvgPath.len p)%nat) [stroke 100; mkStroke 0 7 0 false])
    /\ findall root svg_path_tag = [].
Proof.
  eexists. split; [reflexivity|].
  apply (write_svg_with_gaps_paths [stroke 100; mkStroke 0 7 0 false] [] 1).
  reflexivity.
Defined.

Lemma filter_all {A : Type} (f : A -> bool) (l : list A) :
  Forall (fun x => f x = true) l -> filter f l = l.
Proof.
  induction 1 as [|x l Hx _ IH]; [reflexivity|]. cbn [filter]. now rewrite Hx, IH.
Qed.

(** The attributes the reader returns. *)
Lemma parse_svg_paths_attrs
  {Curve : Type} `{SvgPath.Ops Curve} `{SvgText.Ops Curve}
  (root : element) (paths : list Curve) (svg_attrs : list (string * string)) :
  parse_svg_paths root = Ret (paths, svg_attrs) ->
  svg_attrs = [("viewBox", get (attrib_of root) "viewBox" "");
               ("width", get (attrib_of root) "width" "100%");
               ("height", get (attrib_of root) "height" "100%")]%string.
Proof.
  unfold parse_svg_paths.
  destruct (collect_paths_spec (findall root svg_path_tag) []) as (new1 & -> & _).
  cbn [bind].
  destruct (collect_paths_spec (findall root "path") ([] ++ new1)) as (new2 & -> & _).
  cbn [bind]. now intros [= _ <-].
Qed.



(** X11: the root attributes survive reading and writing.  When the
    writer is given the attributes the reader returned for a document
    and returns, the written root carries the namespace and the
    document's viewBox, width and height, with "", "100%" and "100%" for
    those the document lacks; the writer's own default viewBox
    "0 0 1000 1000" is never used. *)
Theorem root_attributes_survive
  {Curve : Type} `{SvgPath.Ops Curve} `{SvgText.Ops Curve} `{FloatText}
  (doc : element) (parsed gapped_paths : list Curve)
  (svg_attrs : list (string * string)) (stroke_width : Q) (root : element) :
  parse_svg_paths doc = Ret (parsed, svg_attrs) ->
  write_svg_with_gaps gapped_paths svg_attrs stroke_width = Ret root ->
  attrib_of root
  = [("xmlns", svg_ns);
     ("viewBox", get (attrib_of doc) "viewBox" "");
     ("width", get (attrib_of doc) "width" "100%");
     ("height", get (attrib_of doc) "height" "100%")]%string.
Proof.
  intros Hp Hw. apply parse_svg_paths_attrs in Hp. subst svg_attrs.
  apply write_svg_with_gaps_inv in Hw. destruct Hw as (h & ->). reflexivity.
Qed.

(** [root_attributes_survive] at a document with a viewBox and a width. *)
Lemma root_attributes_survive_witness :
  exists root : element,
    write_svg_with_gaps [stroke 100]
      [("viewBox", "0 0 640 48.5"); ("width", "640pt"); ("height", "100%")]%string 1
    = Ret root
    /\ attrib_of root
       = [("xmlns", svg_ns); ("viewBox", "0 0 640 48.5");
          ("width", "640pt"); ("height", "100%")]%string.
Proof.
  eexists. split; [reflexivity|].
  apply (root_attributes_survive
           (Element "svg" [("viewBox", "0 0 640 48.5"); ("width", "640pt")]%string [])
           [] [stroke 100]
           [("viewBox", "0 0 640 48.5"); ("width", "640pt"); ("height", "100%")]%string 1).
  - reflexivity.
  - reflexivity.
Defined.

(** X12: a document without viewBox is flipped about 1000.  When the
    document read has no viewBox attribute (or an empty one), the writer
    given the reader's attributes returns, whatever [float] accepts: the
    written root has an empty viewBox and its group is translated by the
    integer default, [translate(0,-1000)]. *)
Theorem missing_viewbox_flips_about_1000
  {Curve : Type} `{SvgPath.Ops Curve} `{SvgText.Ops Curve} `{FloatText}
  (doc : element) (parsed gapped_paths : list Curve)
  (svg_attrs : list (string * string)) (stroke_width : Q) :
  parse_svg_paths doc = Ret (parsed, svg_attrs) ->
  get (attrib_of doc) "viewBox" "" = ""%string ->
  write_svg_with_gaps gapped_paths svg_attrs stroke_width
  = Ret (Element "svg"
           [("xmlns", svg_ns); ("viewBox", "");
            ("width", get (attrib_of doc) "width" "100%");
            ("height", get (attrib_of doc) "height" "100%")]%string
           [Element "g"
              [("transform", "scale(1,-1) translate(0,-1000)")]%string
              (add_paths gapped_paths stroke_width [])]).
Proof.
  intros Hp Hv. apply parse_svg_paths_attrs in Hp. subst svg_attrs.
  unfold write_svg_with_gaps. cbn [get String.eqb Ascii.eqb Bool.eqb].
  rewrite Hv. reflexivity.
Qed.

(** [missing_viewbox_flips_about_1000] at a document with a width only. *)
Lemma missing_viewbox_flips_about_1000_witness :
  write_svg_with_gaps [stroke 100]
    [("viewBox", ""); ("width", "640pt"); ("height", "100%")]%string 1
  = Ret (Element "svg"
           [("xmlns", svg_ns); ("viewBox", ""); ("width", "640pt"); ("height", "100%")]%string
           [Element "g"
              [("transform", "scale(1,-1) translate(0,-1000)")]%string
              (add_paths [stroke 100] 1 [])]).
Proof.
  apply (missing_viewbox_flips_about_1000
           (Element "svg" [("width", "640pt")]%string []) [] [stroke 100]
           [("viewBox", ""); ("width", "640pt"); ("height", "100%")]%string 1).
  - reflexivity.
  - reflexivity.
Defined.

(** * The retained runs of the periodic branch *)

Lemma Forall2_nth_error_l {A B : Type} (R : A -> B -> Prop) (l : list A) (l' : list B) :
  Forall2 R l l' ->
  forall i x, nth_error l i = Some x -> exists y, nth_error l' i = Some y /\ R x y.
Proof.
  induction 1 as [|a b l l' Hab _ IH]; intros i x Hi.
  - destruct i; discriminate.
  - destruct i as [|i]; cbn in Hi.
    + injection Hi as <-. exists b. now split.
    + exact (IH i x Hi).
Qed.

(** With a gap shorter than the spacing there is a range before every
    gap: the first runs from the cursor to the first gap, and each later
    one is as wide as the spacing less the gap. *)
Lemma arc_spans_periodic_runs (L g s : Q) (n : nat) :
  forall pos c,
    0 < g -> g < s ->
    (forall k, (k < n)%nat -> pos + Qn k * s < L) ->
    c < pos ->
    (n <= List.length (arc_spans L c (gaps_from L g s pos n)))%nat
    /\ (forall i r,
          nth_error (arc_spans L c (gaps_from L g s pos n)) i = Some r ->
          (i = 0%nat -> (0 < n)%nat -> r = (c, pos))
          /\ ((0 < i)%nat -> (i < n)%nat -> snd r - fst r == s - g)).
Proof.
  induction n as [|n IH]; intros pos c Hg Hgs Hlt Hc; cbn [gaps_from arc_spans].
  - split; [lia|]. intros i r _. split; intros; lia.
  - assert (H0 : pos < L).
    { specialize (Hlt O ltac:(lia)). rewrite Qn_0 in Hlt. lra. }
    destruct (Qlt_le_dec c pos); [|lra]. cbn [app].
    assert (Hc' : Qmin (pos + g) L < pos + s).
    { pose proof (Q.le_min_l (pos + g) L). lra. }
    destruct (IH (pos + s) (Qmin (pos + g) L) Hg Hgs) as [Hlen Hnth]; trivial.
    { intros k Hk. specialize (Hlt (S k) ltac:(lia)). rewrite Qn_S in Hlt. lra. }
    split; [cbn [List.length]; lia|].
    intros [|i] r Hr; cbn [nth_error] in Hr.
    + injection Hr as <-. split; [reflexivity|lia].
    + split; [discriminate|]. intros _ Hi.
      destruct (Hnth i r Hr) as [Hfirst Hlater].
      destruct i as [|i]; [|apply Hlater; lia].
      rewrite (Hfirst eq_refl ltac:(lia)). cbn [fst snd].
      assert (Hnext : pos + s < L).
      { specialize (Hlt 1%nat ltac:(lia)). rewrite Qn_S, Qn_0 in Hlt. lra. }
      destruct (Q.min_spec (pos + g) L) as [[Hm E]|[Hm E]]; lra.
Qed.

(** X13: the retained runs are periodic.  For a curve with primitives
    longer than gap_spacing, 0 < gap_length < gap_spacing, and crops
    that succeed and preserve arc length, there is a segment before
    every recorded gap: the first has arc length gap_spacing and each
    later one before a gap has arc length gap_spacing - gap_length. *)
Theorem retained_runs_are_periodic
  {Curve : Type} `{SvgPath.Ops Curve}
  (path : Curve) (g s : Q) (fuel : nat) :
  (0 < SvgPath.len path)%nat ->
  0 < g -> g < s -> s < SvgPath.length path ->
  crops_succeed path -> crops_preserve_length path ->
  (fuel_bound (SvgPath.length path) s <= fuel)%nat ->
  exists (gaps : list (Q * Q)) (out : list Curve),
    gap_positions fuel (SvgPath.length path) g s = Ret gaps
    /\ insert_gaps_in_path fuel path g s = Ret out
    /\ (0 < List.length gaps <= List.length out)%nat
    /\ (forall i seg,
          nth_error out i = Some seg ->
          (i = 0%nat -> SvgPath.length seg == s)
          /\ ((0 < i)%nat -> (i < List.length gaps)%nat ->
              SvgPath.length seg == s - g)).
Proof.
  intros Hlen Hg Hgs HL Hcrop Hpres Hfuel. set (L := SvgPath.length path) in *.
  assert (Hs : 0 < s) by lra. assert (HL0 : 0 <= L) by lra.
  assert (HLs : s <= L) by lra. assert (HLpos : 0 < L) by lra.
  destruct (gap_positions_walkable fuel L g s Hg Hs HL0 Hfuel) as (gaps & Hgp & Hw & Hp).
  pose proof (insert_gaps_in_path_nonempty fuel path g s gaps Hlen Hgp) as Hout.
  destruct (Qeq_bool (SvgPath.length path) 0) eqn:E0;
    [apply Qeq_bool_iff in E0; fold L in E0; lra|].
  pose proof (segmentation_spans path HLpos Hcrop gaps Hw Hp) as HF.
  apply (segments_lengths path) in HF; trivial. fold L in HF.
  exists gaps, (segmentation path gaps). split; [exact Hgp|]. split; [exact Hout|].
  pose proof (periodic_count_le_bound L s).
  rewrite gap_positions_periodic in Hgp by (assumption || lia).
  injection Hgp as Hgaps.
  destruct (periodic_count_spec L s Hs HLs) as [Hlt Hge].
  assert (Hn : (0 < periodic_count L s)%nat).
  { destruct (periodic_count L s); [rewrite Qn_0 in Hge; lra|lia]. }
  destruct (arc_spans_periodic_runs L g s (periodic_count L s) s 0 Hg Hgs Hlt Hs)
    as [Hcount Hruns].
  rewrite Hgaps in Hcount, Hruns.
  assert (Hgl : List.length gaps = periodic_count L s)
    by (rewrite <- Hgaps; apply gaps_from_length).
  pose proof (Forall2_length HF) as Hlen2.
  split; [lia|].
  intros i seg Hi.
  destruct (Forall2_nth_error_l _ _ _ HF i seg Hi) as (r & Hr & Hseg).
  destruct (Hruns i r Hr) as [Hfirst Hlater]. split.
  - intros ->. rewrite (Hfirst eq_refl Hn) in Hseg. cbn [fst snd] in Hseg. lra.
  - intros Hi0 Hin. rewrite Hseg. apply Hlater; lia.
Qed.

(** [retained_runs_are_periodic] at a stroke of length 100. *)
Lemma retained_runs_are_periodic_witness :
  exists (gaps : list (Q * Q)) (out : list Stroke),
    gap_positions 5 (SvgPath.length (stroke 100)) 3 40 = Ret gaps
    /\ insert_gaps_in_path 5 (stroke 100) 3 40 = Ret out
    /\ (0 < List.length gaps <= List.length out)%nat
    /\ (forall i seg,
          nth_error out i = Some seg ->
          (i = 0%nat -> SvgPath.length seg == 40)
          /\ ((0 < i)%nat -> (i < List.length gaps)%nat ->
              SvgPath.length seg == 40 - 3)).
Proof.
  apply (retained_runs_are_periodic (stroke 100) 3 40 5).
  - cbn. lia.
  - reflexivity.
  - reflexivity.
  - reflexivity.
  - apply stroke_crops_succeed.
  - apply stroke_crops_preserve_length.
  - vm_compute. lia.
Defined.


(** * The function over an abstract float arithmetic *)

#[export] Instance Exact_finite : Py.Finite Q.
Proof.
  refine {| Py.value := fun x => Some x |}.
  - intros x y a b [= <-] [= <-]. cbn. destruct (Qlt_le_dec x y); split; trivial.
    + discriminate.
    + intros Hlt. lra.
  - intros x y a b [= <-] [= <-]. cbn. apply Qeq_bool_iff.
  - reflexivity.
Defined.

#[export] Instance Extended_finite : Py.Finite xq.
Proof.
  refine {| Py.value := fun x => match x with Fin q => Some q | _ => None end |}.
  - intros [x| | |] [y| | |] a b; try discriminate. intros [= <-] [= <-]. cbn.
    destruct (Qlt_le_dec x y); split; trivial.
    + discriminate.
    + intros Hlt. lra.
  - intros [x| | |] [y| | |] a b; try discriminate. intros [= <-] [= <-]. cbn.
    apply Qeq_bool_iff.
  - reflexivity.
Defined.

Section PyLoops.

Context {F Curve : Type} `{Py.Float F} `{Py.Ops F Curve}.

Lemma py_gap_loop_unfold (fuel : nat) (L g s pos : F) (acc : list (F * F)) :
  Py.gap_loop fuel L g s pos acc
  = if Py.ltb pos L then
      match fuel with
      | O => Fuel
      | S fuel' =>
          Py.gap_loop fuel' L g s (Py.add pos s)
                      (acc ++ [(pos, Py.pmin (Py.add pos g) L)])
      end
    else Ret acc.
Proof. destruct fuel; reflexivity. Qed.

Lemma py_gap_loop_no_exception (fuel : nat) (L g s : F) :
  forall pos acc, Py.gap_loop fuel L g s pos acc <> Exc.
Proof.
  induction fuel as [|fuel IH]; intros pos acc; rewrite py_gap_loop_unfold;
    destruct (Py.ltb pos L); try discriminate. apply IH.
Qed.

Lemma py_gap_positions_no_exception (fuel : nat) (L g s : F) :
  Py.gap_positions fuel L g s <> Exc.
Proof.
  unfold Py.gap_positions. destruct (Py.ltb L s).
  - destruct (_ || _); discriminate.
  - apply py_gap_loop_no_exception.
Qed.

Lemma py_segment_before_gap_eq (path : Curve) (L a b : F) (out : list Curve) :
  Py.eqb L Py.zero = false ->
  Py.segment_before_gap path L a b out
  = Ret (out ++ Py.attempt path (Py.clamp01 (Py.div a L), Py.clamp01 (Py.div b L))).
Proof.
  intros HL. unfold Py.segment_before_gap, Py.attempt, Py.clamp01, Py.fdiv.
  rewrite HL. cbn [bind fst snd].
  destruct (Py.ltb _ _); [|now rewrite app_nil_r].
  destruct (Py.cropped path _ _) as [seg|]; cbn [call bind try_except];
    [|now rewrite app_nil_r].
  destruct (Py.len seg) as [n|]; cbn [call bind try_except];
    [|now rewrite app_nil_r].
  destruct (0 <? n)%nat; cbn [try_except]; [reflexivity|now rewrite app_nil_r].
Qed.

Lemma py_final_segment_eq (path : Curve) (L c : F) (out : list Curve) :
  Py.eqb L Py.zero = false ->
  Py.final_segment path L c out
  = Ret (out ++ if Py.ltb c L
                then Py.attempt path (Py.clamp01 (Py.div c L), Py.one) else []).
Proof.
  intros HL. unfold Py.final_segment, Py.attempt, Py.clamp01, Py.fdiv.
  destruct (Py.ltb c L); [|now rewrite app_nil_r].
  rewrite HL. cbn [bind fst snd].
  destruct (Py.ltb _ _); [|now rewrite app_nil_r].
  destruct (Py.cropped path _ _) as [seg|]; cbn [call bind try_except];
    [|now rewrite app_nil_r].
  destruct (Py.len seg) as [n|]; cbn [call bind try_except];
    [|now rewrite app_nil_r].
  destruct (0 <? n)%nat; cbn [try_except]; [reflexivity|now rewrite app_nil_r].
Qed.

Lemma py_build_segments_eq (path : Curve) (L : F) (gaps : list (F * F)) :
  Py.eqb L Py.zero = false ->
  forall (c : F) (out : list Curve),
    Py.build_segments path L gaps c out
    = Ret (Py.cursor_after c gaps,
           out ++ flat_map (Py.attempt path) (Py.loop_requests L c gaps)).
Proof.
  intros HL. induction gaps as [|[a b] rest IH]; intros c out; cbn [Py.build_segments].
  - cbn. now rewrite app_nil_r.
  - cbn [Py.cursor_after Py.loop_requests].
    destruct (Py.ltb c a).
    + rewrite py_segment_before_gap_eq by assumption. cbn [bind]. rewrite IH.
      rewrite flat_map_app. cbn [flat_map]. now rewrite app_nil_r, app_assoc.
    + cbn [bind]. rewrite IH. reflexivity.
Qed.

(** Once the curve is measured, the call does what the gap placement
    does: it returns [segmentation] when the placement returns and runs
    out of budget when the placement does. *)
Lemma py_insert_gaps_in_path_eq (fuel : nat) (path : Curve) (g s : F) (n : nat) (L : F) :
  Py.len path = Some n -> Py.length path = Some L ->
  Py.insert_gaps_in_path fuel path g s
  = if (n =? 0)%nat then Ret []
    else if Py.eqb L Py.zero then Ret [path]
         else match Py.gap_positions fuel L g s with
              | Ret gaps => Ret (Py.segmentation path L gaps)
              | Exc => Exc
              | Fuel => Fuel
              end.
Proof.
  intros Hn HL. unfold Py.insert_gaps_in_path. rewrite Hn. cbn [call bind].
  destruct (n =? 0)%nat; [reflexivity|]. rewrite HL. cbn [call bind].
  destruct (Py.eqb L Py.zero) eqn:E0; [reflexivity|].
  destruct (Py.gap_positions fuel L g s) as [gaps| |]; cbn [bind]; try reflexivity.
  unfold Py.segmentation, Py.crop_requests.
  destruct gaps as [|gp rest]; [reflexivity|].
  rewrite py_build_segments_eq by assumption. cbn [bind fst snd].
  rewrite py_final_segment_eq by assumption. cbn [bind app].
  rewrite flat_map_app.
  destruct (Py.ltb _ _); cbn [flat_map]; rewrite ?app_nil_r;
    match goal with |- context [match ?l with [] => _ | _ :: _ => _ end] =>
      destruct l end; reflexivity.
Qed.

Lemma py_attempt_length (path : Curve) (r : F * F) :
  (List.length (Py.attempt path r) <= 1)%nat.
Proof.
  unfold Py.attempt. destruct (Py.ltb _ _); [|cbn; lia].
  destruct (Py.cropped path _ _) as [seg|]; [|cbn; lia].
  destruct (Py.len seg) as [n|]; [|cbn; lia].
  destruct (0 <? n)%nat; cbn; lia.
Qed.

Lemma py_flat_map_attempt_length (path : Curve) (reqs : list (F * F)) :
  (List.length (flat_map (Py.attempt path) reqs) <= List.length reqs)%nat.
Proof.
  induction reqs as [|r reqs IH]; cbn [flat_map List.length]; [lia|].
  rewrite length_app. pose proof (py_attempt_length path r). lia.
Qed.

Lemma py_loop_requests_length (L : F) (gaps : list (F * F)) :
  forall c, (List.length (Py.loop_requests L c gaps) <= List.length gaps)%nat.
Proof.
  induction gaps as [|[a b] rest IH]; intros c; cbn [Py.loop_requests List.length]; [lia|].
  rewrite length_app. specialize (IH b).
  destruct (Py.ltb c a); cbn [List.length]; lia.
Qed.

Lemma py_segmentation_length (path : Curve) (L : F) (gaps : list (F * F)) :
  (List.length (Py.segmentation path L gaps) <= List.length gaps + 1)%nat.
Proof.
  unfold Py.segmentation. destruct gaps as [|gp rest]; [cbn; lia|].
  pose proof (py_flat_map_attempt_length path (Py.crop_requests L (gp :: rest))) as H1.
  assert (H2 : (List.length (Py.crop_requests L (gp :: rest))
                <= List.length (gp :: rest) + 1)%nat).
  { unfold Py.crop_requests. rewrite length_app.
    pose proof (py_loop_requests_length L (gp :: rest) Py.zero).
    destruct (Py.ltb _ _); cbn [List.length] in *; lia. }
  destruct (flat_map _ _); cbn [List.length] in *; lia.
Qed.

Lemma py_attempt_proper (path : Curve) (r : F * F) :
  Forall (Py.proper_crop path) (Py.attempt path r).
Proof.
  unfold Py.attempt. destruct (Py.ltb _ _) eqn:Hlt; [|constructor].
  destruct (Py.cropped path _ _) as [seg|] eqn:E; [|constructor].
  destruct (Py.len seg) as [[|n]|] eqn:El; cbn; constructor; [|constructor].
  exists (fst r), (snd r), n. now repeat split.
Qed.

Lemma py_segmentation_emits (path : Curve) (L : F) (gaps : list (F * F)) :
  Forall (fun seg => seg = path \/ Py.proper_crop path seg) (Py.segmentation path L gaps).
Proof.
  unfold Py.segmentation. destruct gaps as [|gp rest]; [repeat constructor|].
  assert (Hp : Forall (Py.proper_crop path)
                 (flat_map (Py.attempt path) (Py.crop_requests L (gp :: rest)))).
  { induction (Py.crop_requests L (gp :: rest)) as [|r l IH]; cbn [flat_map];
      [constructor|]. apply Forall_app. split; [apply py_attempt_proper|exact IH]. }
  destruct (flat_map _ _) as [|seg segs]; [repeat constructor|].
  eapply Forall_impl; [|exact Hp]. intros; now right.
Qed.

End PyLoops.

(** ** C8: which errors reach the caller *)




(** ** C10: termination *)

Section PyPlacement.

Context {F : Type} `{Py.Finite F}.

Variables (L g s : F) (Lq sq : Q).
Hypothesis L_value : Py.value L = Some Lq.
Hypothesis s_value : Py.value s = Some sq.

Lemma py_ltb_irrefl : Py.ltb L L = false.
Proof.
  destruct (Py.ltb L L) eqn:E; [|reflexivity].
  apply (Py.ltb_value L L Lq Lq L_value L_value) in E. lra.
Qed.

(** The end of a recorded gap never lies beyond the path end. *)
Lemma py_pmin_clipped (x : F) : Py.ltb L (Py.pmin x L) = false.
Proof.
  unfold Py.pmin. destruct (Py.ltb L x) eqn:E; [apply py_ltb_irrefl|exact E].
Qed.

(** With exact additions the loop entered at the [j]-th multiple of the
    spacing runs its body [n] times when [n] further multiples lie on
    the path and no more. *)
Lemma py_gap_loop_run (n : nat) :
  forall (fuel j : nat) (pos : F) (q : Q) (acc : list (F * F)),
    exact_steps s Lq sq ->
    (1 <= j)%nat -> Py.value pos = Some q -> q == Qn j * sq ->
    (n <= fuel)%nat ->
    (forall k, (k < n)%nat -> q + Qn k * sq < Lq) ->
    Lq <= q + Qn n * sq ->
    exists new : list (F * F),
      Py.gap_loop fuel L g s pos acc = Ret (acc ++ new)
      /\ List.length new = n
      /\ (forall k gap, nth_error new k = Some gap ->
            (exists q', Py.value (fst gap) = Some q' /\ q' == q + Qn k * sq)
            /\ snd gap = Py.pmin (Py.add (fst gap) g) L).
Proof.
  induction n as [|n IH]; intros fuel j pos q acc Hex Hj Hpos Hq Hfuel Hlt Hge;
    rewrite py_gap_loop_unfold.
  - rewrite Qn_0 in Hge.
    destruct (Py.ltb pos L) eqn:E.
    { apply (Py.ltb_value pos L q Lq Hpos L_value) in E. lra. }
    exists []. rewrite app_nil_r. split; [reflexivity|]. split; [reflexivity|].
    intros [|k] gap Hk; discriminate.
  - assert (Hq0 : q < Lq).
    { specialize (Hlt O ltac:(lia)). rewrite Qn_0 in Hlt. lra. }
    destruct (Py.ltb pos L) eqn:E.
    2:{ assert (Py.ltb pos L = true)
          by (apply (Py.ltb_value pos L q Lq Hpos L_value); exact Hq0).
        congruence. }
    destruct fuel as [|fuel]; [lia|].
    destruct (Hex pos q j Hj Hpos Hq Hq0) as (q' & Hq' & Eq').
    destruct (IH fuel (S j) (Py.add pos s) q'
                 (acc ++ [(pos, Py.pmin (Py.add pos g) L)]) Hex)
      as (new & Hrun & Hlen & Hnth); trivial; try lia.
    + rewrite Eq', Hq, Qn_S. ring.
    + intros k Hk. specialize (Hlt (S k) ltac:(lia)). rewrite Qn_S in Hlt.
      rewrite Eq'. lra.
    + rewrite Qn_S in Hge. rewrite Eq'. lra.
    + exists ((pos, Py.pmin (Py.add pos g) L) :: new).
      split; [rewrite Hrun, <- app_assoc; reflexivity|].
      split; [cbn; lia|].
      intros [|k] gap Hk; cbn [nth_error] in Hk.
      * injection Hk as <-. cbn [fst snd]. split; [|reflexivity].
        exists q. split; [exact Hpos|]. rewrite Qn_0. ring.
      * destruct (Hnth k gap Hk) as [(q2 & Hq2 & Eq2) Hsnd].
        split; [|exact Hsnd]. exists q2. split; [exact Hq2|].
        rewrite Eq2, Eq', Qn_S. ring.
Qed.

(** With exact additions and a positive spacing the gap placement
    returns within [fuel_bound] iterations. *)
Lemma py_gap_positions_returns (fuel : nat) :
  0 < sq -> exact_steps s Lq sq -> (fuel_bound Lq sq <= fuel)%nat ->
  exists gaps : list (F * F),
    Py.gap_positions fuel L g s = Ret gaps
    /\ (sq <= Lq ->
        List.length gaps = periodic_count Lq sq
        /\ (forall k gap, nth_error gaps k = Some gap ->
              (exists q', Py.value (fst gap) = Some q' /\ q' == Qn (S k) * sq)
              /\ snd gap = Py.pmin (Py.add (fst gap) g) L)).
Proof.
  intros Hs Hex Hfuel. unfold Py.gap_positions.
  destruct (Py.ltb L s) eqn:E.
  - apply (Py.ltb_value L s Lq sq L_value s_value) in E.
    destruct (_ || _); eexists; (split; [reflexivity|]); intros Hle; lra.
  - assert (HLs : sq <= Lq).
    { destruct (Qlt_le_dec Lq sq) as [Hlt|]; [|assumption].
      apply (Py.ltb_value L s Lq sq L_value s_value) in Hlt. congruence. }
    destruct (periodic_count_spec Lq sq Hs HLs) as [Hlt Hge].
    pose proof (periodic_count_le_bound Lq sq) as Hb.
    destruct (py_gap_loop_run (periodic_count Lq sq) fuel 1 s sq [] Hex)
      as (new & Hrun & Hlen & Hnth); trivial; try lia.
    + rewrite Qn_S, Qn_0. ring.
    + exists new. split; [exact Hrun|]. intros _. split; [exact Hlen|].
      intros k gap Hk. destruct (Hnth k gap Hk) as [(q' & Hq' & Eq') Hsnd].
      split; [|exact Hsnd]. exists q'. split; [exact Hq'|].
      rewrite Eq', Qn_S. ring.
Qed.

(** With a spacing that is not positive and additions that stay finite
    the loop never leaves a path of positive length. *)
Lemma py_gap_loop_stuck (fuel : nat) :
  forall (pos : F) (q : Q) (acc : list (F * F)),
    sinking s -> 0 < Lq -> Py.value pos = Some q -> q <= 0 ->
    Py.gap_loop fuel L g s pos acc = Fuel.
Proof.
  induction fuel as [|fuel IH]; intros pos q acc Hsink HL Hpos Hq;
    rewrite py_gap_loop_unfold;
    (destruct (Py.ltb pos L) eqn:E;
     [|assert (Py.ltb pos L = true)
         by (apply (Py.ltb_value pos L q Lq Hpos L_value); lra); congruence]).
  - reflexivity.
  - destruct (Hsink pos q Hpos Hq) as (q' & Hq' & Hle). now apply (IH _ q').
Qed.

End PyPlacement.

Lemma exact_arithmetic_steps (s Lq : Q) : exact_steps (F := Q) s Lq s.
Proof.
  intros p q k _ Hp _ _. injection Hp as <-. exists (p + s). split; reflexivity.
Qed.

Lemma exact_arithmetic_sinking (s : Q) : s <= 0 -> sinking (F := Q) s.
Proof.
  intros Hs p q Hp Hq. injection Hp as <-. exists (p + s). split; [reflexivity|lra].
Qed.

Lemma endless_loop (fuel : nat) :
  forall (q : Q) (acc : list (xq * xq)),
    Py.gap_loop fuel PInf (Fin 3) (Fin 40) (Fin q) acc = Fuel.
Proof.
  induction fuel as [|fuel IH]; intros q acc; rewrite py_gap_loop_unfold;
    cbn [Py.ltb Extended xq_ltb]; [reflexivity|]. apply IH.
Qed.




(** ** C1: the periodic gaps *)

(** C1 (amended): for every curve that the library measures, with
    finite total_length >= gap_spacing > 0, when the additions
    [pos += gap_spacing] of the loop are exact, [insert_gaps_in_path]
    records exactly ceil(total_length / gap_spacing) - 1 gaps: that is
    floor(total_length / gap_spacing) when total_length is not an integer
    multiple of gap_spacing, and one less when it is.  The gaps are
    evenly spaced: gap number k (from 0) starts at arc length
    (k + 1) * gap_spacing and ends at min(start + gap_length,
    total_length), never beyond the path end.  The function returns, and
    the number of segments it returns is at most the gap count plus
    one. *)
Theorem periodic_gaps_when_exact
  {F Curve : Type} `{Py.Finite F} `{Py.Ops F Curve}
  (path : Curve) (g s : F) (fuel : nat) (n : nat) (L : F) (Lq sq : Q) :
  Py.len path = Some n -> Py.length path = Some L ->
  Py.value L = Some Lq -> Py.value s = Some sq ->
  0 < sq -> sq <= Lq -> exact_steps s Lq sq ->
  (fuel_bound Lq sq <= fuel)%nat ->
  exists (gaps : list (F * F)) (out : list Curve),
    Py.gap_positions fuel L g s = Ret gaps
    /\ Z.of_nat (List.length gaps) = (Qceiling (Lq / sq) - 1)%Z
    /\ (~ inject_Z (Qfloor (Lq / sq)) == Lq / sq ->
        Z.of_nat (List.length gaps) = Qfloor (Lq / sq))
    /\ (inject_Z (Qfloor (Lq / sq)) == Lq / sq ->
        Z.of_nat (List.length gaps) = (Qfloor (Lq / sq) - 1)%Z)
    /\ (forall (k : nat) (gap : F * F),
          nth_error gaps k = Some gap ->
          (exists q, Py.value (fst gap) = Some q /\ q == Qn (S k) * sq)
          /\ snd gap = Py.pmin (Py.add (fst gap) g) L
          /\ Py.ltb L (snd gap) = false)
    /\ Py.insert_gaps_in_path fuel path g s = Ret out
    /\ (List.length out <= List.length gaps + 1)%nat.
Proof.
  intros Hn HL HLq Hsq Hs Hle Hex Hfuel.
  destruct (py_gap_positions_returns L g s Lq sq HLq Hsq fuel Hs Hex Hfuel)
    as (gaps & Hgp & Hcount).
  destruct (Hcount Hle) as [Hlen Hnth].
  pose proof (ceiling_ge_1 Lq sq Hs Hle) as Hc.
  assert (Hz : Z.of_nat (List.length gaps) = (Qceiling (Lq / sq) - 1)%Z).
  { rewrite Hlen. unfold periodic_count. lia. }
  exists gaps.
  exists (if (n =? 0)%nat then []
          else if Py.eqb L Py.zero then [path] else Py.segmentation path L gaps).
  split; [exact Hgp|]. split; [exact Hz|].
  split; [|split; [|split; [|split]]].
  - intros Hni. rewrite Hz.
    destruct (ceiling_floor_cases (Lq / sq)) as [[E _]|[_ E]]; [contradiction|lia].
  - intros Hi. rewrite Hz.
    destruct (ceiling_floor_cases (Lq / sq)) as [[_ E]|[E _]]; [lia|contradiction].
  - intros k gap Hk. destruct (Hnth k gap Hk) as [Hstart Hend].
    split; [exact Hstart|]. split; [exact Hend|].
    rewrite Hend. apply (py_pmin_clipped L Lq HLq).
  - rewrite (py_insert_gaps_in_path_eq fuel path g s n L Hn HL), Hgp.
    destruct (n =? 0)%nat; [reflexivity|].
    destruct (Py.eqb L Py.zero); reflexivity.
  - destruct (n =? 0)%nat; [cbn [List.length]; lia|].
    destruct (Py.eqb L Py.zero); [cbn [List.length]; lia|].
    apply py_segmentation_length.
Qed.

(** [periodic_gaps_when_exact] at a stroke of length 100 with spacing 40
    in the exact arithmetic. *)
Lemma periodic_gaps_when_exact_witness :
  exists (gaps : list (Q * Q)) (out : list Stroke),
    Py.gap_positions 5 (100 - 0) 3 40 = Ret gaps
    /\ Z.of_nat (List.length gaps) = (Qceiling ((100 - 0) / 40) - 1)%Z
    /\ (~ inject_Z (Qfloor ((100 - 0) / 40)) == (100 - 0) / 40 ->
        Z.of_nat (List.length gaps) = Qfloor ((100 - 0) / 40))
    /\ (inject_Z (Qfloor ((100 - 0) / 40)) == (100 - 0) / 40 ->
        Z.of_nat (List.length gaps) = (Qfloor ((100 - 0) / 40) - 1)%Z)
    /\ (forall (k : nat) (gap : Q * Q),
          nth_error gaps k = Some gap ->
          (exists q, Py.value (fst gap) = Some q /\ q == Qn (S k) * 40)
          /\ snd gap = Py.pmin (Py.add (fst gap) 3) (100 - 0)
          /\ Py.ltb (100 - 0) (snd gap) = false)
    /\ Py.insert_gaps_in_path 5 (stroke 100) 3 40 = Ret out
    /\ (List.length out <= List.length gaps + 1)%nat.
Proof.
  apply (periodic_gaps_when_exact (stroke 100) 3 40 5 1 (100 - 0) (100 - 0) 40).
  - reflexivity.
  - reflexivity.
  - reflexivity.
  - reflexivity.
  - reflexivity.
  - vm_compute. discriminate.
  - apply exact_arithmetic_steps.
  - vm_compute. lia.
Defined.

(** ** The function on binary64 *)

(** With the machine's arithmetic the additions round: at length 1.0 and
    spacing 0.1 ten gaps are recorded, one more than
    ceil(1.0 / 0.1) - 1, because the position accumulated by nine
    additions is still below 1.0. *)
Example binary64_accumulates :
  let tenth := PrimFloat.div (float_of_nat 1) (float_of_nat 10) in
  option_map (@List.length _)
    (match Py.gap_positions 20 (float_of_nat 1) tenth tenth with
     | Ret gaps => Some gaps
     | _ => None
     end) = Some 10%nat.
Proof. vm_compute. reflexivity. Qed.

(** With the machine's arithmetic and the default spacing 40.0 the gaps
    of a path of length 100.0 start at 40.0 and 80.0. *)
Example binary64_default_spacing :
  option_map (map fst)
    (match Py.gap_positions 20 (float_of_nat 100) (float_of_nat 3) (float_of_nat 40) with
     | Ret gaps => Some gaps
     | _ => None
     end) = Some [float_of_nat 40; float_of_nat 80].
Proof. vm_compute. reflexivity. Qed.

(** ** C2: the segments and the gaps tile the path *)

Lemma range_eq_sym (r r' : Q * Q) : range_eq r r' -> range_eq r' r.
Proof. intros [H1 H2]. split; symmetry; assumption. Qed.

Lemma Forall_Forall2 {A B : Type} (E : B -> A -> Prop) (P : A -> Prop) (P' : B -> Prop)
      (l : list A) (l' : list B) :
  (forall x x', E x' x -> P x -> P' x') ->
  Forall2 E l' l -> Forall P l -> Forall P' l'.
Proof.
  intros Himp HF. induction HF as [|x' x l' l Hx _ IH]; intros HP; constructor.
  - apply (Himp x x' Hx). now apply Forall_inv in HP.
  - apply IH. now apply Forall_inv_tail in HP.
Qed.

Lemma Exists_Forall2 {A B : Type} (E : B -> A -> Prop) (P : A -> Prop) (P' : B -> Prop)
      (l : list A) (l' : list B) :
  (forall x x', E x' x -> P x -> P' x') ->
  Forall2 E l' l -> Exists P l -> Exists P' l'.
Proof.
  intros Himp HF. induction HF as [|x' x l' l Hx _ IH]; intros HP.
  - inversion HP.
  - apply Exists_cons in HP. destruct HP as [HP|HP].
    + constructor 1. exact (Himp x x' Hx HP).
    + constructor 2. exact (IH HP).
Qed.

Lemma sorted_Forall2 (R : Q * Q -> Q * Q -> Prop) (l l' : list (Q * Q)) :
  (forall a a' b b', range_eq a' a -> range_eq b' b -> R a b -> R a' b') ->
  Forall2 range_eq l' l -> StronglySorted R l -> StronglySorted R l'.
Proof.
  intros Hc HF. induction HF as [|x' x l' l Hx HF IH]; intros Hs; constructor.
  - apply IH. now apply StronglySorted_inv in Hs.
  - apply StronglySorted_inv in Hs. destruct Hs as [_ Hs].
    eapply Forall_Forall2; [|exact HF|exact Hs].
    intros y y' Hy. now apply Hc.
Qed.

Lemma covered_Forall2 (x : Q) (l l' : list (Q * Q)) :
  Forall2 range_eq l' l -> (covered x l' <-> covered x l).
Proof.
  intros HF. unfold covered. split; intros Hc.
  - eapply Exists_Forall2; [| |exact Hc].
    2:{ clear Hc. induction HF; constructor; [now apply range_eq_sym|assumption]. }
    cbn. intros r r' [H1 H2] [Ha Hb]. rewrite H1, H2. now split.
  - eapply Exists_Forall2; [|exact HF|exact Hc].
    cbn. intros r r' [H1 H2] [Ha Hb]. rewrite H1, H2. now split.
Qed.

(** A tiling is a property of the ranges up to equality of their ends. *)
Lemma tiling_Forall2 (L : Q) (gaps spans spans' : list (Q * Q)) :
  Forall2 range_eq spans' spans -> tiling L gaps spans -> tiling L gaps spans'.
Proof.
  intros HF (Hin & Hgin & Hs1 & Hs2 & Hcov). repeat split; trivial.
  - eapply Forall_Forall2; [|exact HF|exact Hin].
    cbn. intros r r' [H1 H2] (Ha & Hb & Hc). rewrite H1, H2. now repeat split.
  - eapply sorted_Forall2; [|exact HF|exact Hs1].
    unfold before. intros a a' b b' [_ Ha] [Hb _] Hab. rewrite Ha, Hb. exact Hab.
  - eapply sorted_Forall2; [|exact HF|exact Hs2].
    unfold starts_before. intros a a' b b' [Ha _] [Hb _] Hab. rewrite Ha, Hb. exact Hab.
  - destruct (Hcov x H H0) as [[Hc|Hc] _]; [left|right; exact Hc].
    now apply (covered_Forall2 x spans spans' HF).
  - intros [Hc Hg]. destruct (Hcov x H H0) as [_ Hn]. apply Hn. split; [|exact Hg].
    now apply (covered_Forall2 x spans spans' HF).
Qed.



Lemma stroke_crops_exact (l : Q) : crops_exact stroke_interval (stroke l).
Proof.
  intros t0 t1 seg Hc. cbn in Hc. injection Hc as <-.
  unfold stroke_interval, range_eq, stroke.
  cbn [lo hi fst snd SvgPath.length Stroke_ops]. split; ring.
Qed.


(** ** The rational model is the exact instance *)

Lemma exact_pmax (a b : Q) : Py.pmax a b = Qmax a b.
Proof.
  unfold Py.pmax, Qmax, GenericMinMax.gmax. cbn [Py.ltb Exact].
  destruct (Qlt_le_dec a b) as [Hlt|Hle].
  - assert (E : (a ?= b) = Lt) by (apply Qlt_alt; exact Hlt). now rewrite E.
  - destruct (a ?= b) eqn:E; trivial.
    assert (a < b) by (apply Qlt_alt; exact E). lra.
Qed.

Lemma exact_pmin (a b : Q) : Py.pmin a b = Qmin a b.
Proof.
  unfold Py.pmin, Qmin, GenericMinMax.gmin. cbn [Py.ltb Exact].
  destruct (Qlt_le_dec b a) as [Hlt|Hle].
  - assert (E : (a ?= b) = Gt) by (apply Qgt_alt; exact Hlt). now rewrite E.
  - destruct (a ?= b) eqn:E; trivial.
    assert (b < a) by (apply Qgt_alt; exact E). lra.
Qed.

Section ExactInstance.

Context {Curve : Type} `{SvgPath.Ops Curve}.

(** The curve operations of the rational model, none of which raises
    but [cropped]. *)
Let lifted : Py.Ops Q Curve := {|
  Py.len := fun p => Some (SvgPath.len p);
  Py.length := fun p => Some (SvgPath.length p);
  Py.cropped := SvgPath.cropped
|}.

Lemma exact_gap_loop (fuel : nat) (L g s : Q) :
  forall pos acc, Py.gap_loop fuel L g s pos acc = gap_loop fuel L g s pos acc.
Proof.
  induction fuel as [|fuel IH]; intros pos acc; cbn [Py.gap_loop gap_loop Py.ltb Exact];
    destruct (Qlt_le_dec pos L); trivial.
  rewrite exact_pmin. apply IH.
Qed.

Lemma exact_gap_positions (fuel : nat) (L g s : Q) :
  Py.gap_positions fuel L g s = gap_positions fuel L g s.
Proof.
  unfold Py.gap_positions, gap_positions. cbn [Py.ltb Exact].
  destruct (Qlt_le_dec L s); [|apply exact_gap_loop].
  rewrite !fdiv_two. cbn [bind]. rewrite exact_pmax, exact_pmin.
  cbn [Py.ltb Py.zero Py.add Py.sub Py.div Py.two Exact].
  destruct (Qlt_le_dec 0 _); [reflexivity|].
  destruct (Qlt_le_dec _ L); reflexivity.
Qed.

Lemma exact_segment_before_gap (path : Curve) (L a b : Q) (out : list Curve) :
  @Py.segment_before_gap Q Curve Exact lifted path L a b out
  = segment_before_gap path L a b out.
Proof.
  unfold Py.segment_before_gap, segment_before_gap, Py.fdiv, fdiv.
  cbn [Py.eqb Py.zero Py.div Py.one Exact].
  destruct (Qeq_bool L 0); [reflexivity|]. cbn [bind].
  rewrite !exact_pmax, !exact_pmin. cbn [Py.ltb Exact].
  destruct (Qlt_le_dec _ _); [|reflexivity].
  cbn [Py.cropped Py.len lifted].
  destruct (SvgPath.cropped path _ _); reflexivity.
Qed.

Lemma exact_build_segments (path : Curve) (L : Q) (gaps : list (Q * Q)) :
  forall c out,
    @Py.build_segments Q Curve Exact lifted path L gaps c out
    = build_segments path L gaps c out.
Proof.
  induction gaps as [|[a b] rest IH]; intros c out;
    cbn [Py.build_segments build_segments]; [reflexivity|].
  cbn [Py.ltb Exact]. destruct (Qlt_le_dec c a).
  - rewrite exact_segment_before_gap.
    destruct (segment_before_gap path L c a out); cbn [bind]; trivial.
  - cbn [bind]. apply IH.
Qed.

Lemma exact_final_segment (path : Curve) (L c : Q) (out : list Curve) :
  @Py.final_segment Q Curve Exact lifted path L c out
  = final_segment path L c out.
Proof.
  unfold Py.final_segment, final_segment, Py.fdiv, fdiv.
  cbn [Py.ltb Py.eqb Py.zero Py.div Py.one Exact].
  destruct (Qlt_le_dec c L); [|reflexivity].
  destruct (Qeq_bool L 0); [reflexivity|]. cbn [bind].
  rewrite !exact_pmax, !exact_pmin. cbn [Py.ltb Exact].
  destruct (Qlt_le_dec _ _); [|reflexivity].
  cbn [Py.cropped Py.len lifted].
  destruct (SvgPath.cropped path _ _); reflexivity.
Qed.

(** Over the exact arithmetic, with [len] and [length] returning, the
    function over the abstract arithmetic is the function over the
    rationals. *)
Lemma exact_insert_gaps_in_path (fuel : nat) (path : Curve) (g s : Q) :
  @Py.insert_gaps_in_path Q Curve Exact lifted fuel path g s
  = insert_gaps_in_path fuel path g s.
Proof.
  unfold Py.insert_gaps_in_path, insert_gaps_in_path.
  cbn [Py.len Py.length lifted call bind Py.eqb Py.zero Exact].
  destruct (SvgPath.len path =? 0)%nat; [reflexivity|].
  destruct (Qeq_bool _ 0); [reflexivity|].
  rewrite exact_gap_positions.
  destruct (gap_positions fuel _ g s) as [gaps| |]; cbn [bind]; trivial.
  destruct gaps as [|gp rest]; [reflexivity|].
  rewrite exact_build_segments.
  destruct (build_segments path _ (gp :: rest) 0 []) as [st| |]; cbn [bind]; trivial.
  rewrite exact_final_segment. reflexivity.
Qed.

End ExactInstance.
